(** * AWS-AutoSail: a shallow embedding of the console's Go packages

    The development follows the layout of the repository:

    - [Go]       the parts of the Go runtime and standard library the code
                 relies on ([error], [float64], [time.Duration], [fmt], ...);
    - [Aws]      package [aws]: [SafeRetry], the quota lookup, the Lightsail
                 orchestration and [sanitize];
    - [Store]    package [store]: the SQLite-backed credential store;
    - [Session]  package [session]: the in-memory session map.

    Definitions come first, the theorems about them afterwards. *)

From Stdlib Require Import ZArith Lia Bool List String Ascii.
From Stdlib Require Import Floats.SpecFloat.
From Stdlib Require Import DecimalString.
From stdpp Require Import base option list strings gmap fin_maps.
From Equations Require Import Equations.
From Equations.Prop Require Import Logic.

Local Open Scope string_scope.
Local Open Scope list_scope.
Local Open Scope stdpp_scope.
Local Open Scope Z_scope.

(* ===================================================================== *)
(** * Part I: the embedding                                               *)
(* ===================================================================== *)

Module Go.

(** ** [error]

    A Go [error] is an interface value; the code under study only ever
    tests it against [nil] and prints it with [%v].  We keep exactly that:
    [None] is [nil], [Some msg] is a non-nil error whose [Error()] method
    returns [msg]. *)
Definition error : Type := option string.

Definition errors_New (msg : string) : error := Some msg.

(** [%v] applied to an error: its message, or [<nil>] for the nil
    interface value. *)
Definition fmt_v (e : error) : string :=
  match e with
  | None => "<nil>"
  | Some msg => msg
  end.

Definition is_nil (e : error) : bool :=
  match e with None => true | Some _ => false end.

(** ** [int64] *)
Definition min_int64 : Z := - 2 ^ 63.
Definition max_int64 : Z := 2 ^ 63 - 1.

(** ** [float64]: IEEE 754 binary64, through the reference
    implementation of the Standard Library. *)
Definition float64 : Type := spec_float.
Definition prec : Z := 53.
Definition emax : Z := 1024.

(** [float64(n)] for an integer [n]: round to nearest, ties to even. *)
Definition float64_of_int (n : Z) : float64 :=
  binary_normalize prec emax n 0 false.

Definition f64_mul : float64 -> float64 -> float64 := SFmul prec emax.
Definition f64_add : float64 -> float64 -> float64 := SFadd prec emax.
Definition f64_eqb : float64 -> float64 -> bool := SFeqb.

(** A decimal constant [p/q] converted to [float64]. *)
Definition f64_const (p q : Z) : float64 :=
  SFdiv prec emax (float64_of_int p) (float64_of_int q).

(** The integral part of a float, rounding toward zero; [None] for
    infinities and NaN. *)
Definition f64_truncate (x : float64) : option Z :=
  match x with
  | S754_zero _ => Some 0
  | S754_finite s m e =>
      let mag := if 0 <=? e then Z.pos m * 2 ^ e else Z.pos m / 2 ^ (- e) in
      Some (if s then - mag else mag)
  | S754_infinity _ | S754_nan => None
  end.

(** [int64(x)] for a float [x]: truncation toward zero.  When the value
    does not fit, Go leaves the result to the implementation; we take the
    value the amd64 conversion instruction produces, the smallest
    [int64]. *)
Definition int64_of_float64 (x : float64) : Z :=
  match f64_truncate x with
  | Some n => if (min_int64 <=? n) && (n <=? max_int64) then n else min_int64
  | None => min_int64
  end.

(** ** [time.Duration]: a count of nanoseconds. *)
Definition Duration : Type := Z.
Definition Nanosecond : Duration := 1.
Definition Millisecond : Duration := 1000000.
Definition Second : Duration := 1000 * Millisecond.
Definition Minute : Duration := 60 * Second.

(** ** Strings: byte sequences, read as UTF-8 *)

Definition rune : Type := Z.
Definition RuneError : rune := 0xFFFD.
Definition MaxRune : rune := 0x10FFFF.

Definition byte_val (c : ascii) : Z := Z.of_N (N_of_ascii c).
Definition byte_of (n : Z) : ascii := ascii_of_N (Z.to_N n).

Definition string_of_bytes (bs : list Z) : string :=
  fold_right (fun b s => String (byte_of b) s) EmptyString bs.

Fixpoint string_map (f : ascii -> ascii) (s : string) : string :=
  match s with
  | EmptyString => EmptyString
  | String c rest => String (f c) (string_map f rest)
  end.

Fixpoint string_filter (p : ascii -> bool) (s : string) : string :=
  match s with
  | EmptyString => EmptyString
  | String c rest =>
      if p c then String c (string_filter p rest) else string_filter p rest
  end.

Fixpoint string_forallb (p : ascii -> bool) (s : string) : bool :=
  match s with
  | EmptyString => true
  | String c rest => p c && string_forallb p rest
  end.

Fixpoint string_drop (n : nat) (s : string) : string :=
  match n, s with
  | O, _ => s
  | S k, String _ rest => string_drop k rest
  | S _, EmptyString => EmptyString
  end.

Fixpoint string_rev_onto (s acc : string) : string :=
  match s with
  | EmptyString => acc
  | String c rest => string_rev_onto rest (String c acc)
  end.

Definition string_rev (s : string) : string := string_rev_onto s EmptyString.

(** *** [unicode/utf8] *)

(** What the first byte of an encoding announces: a one-byte rune, an
    invalid byte, or a sequence of [size] bytes whose second byte must
    lie in [lo..hi]. *)
Inductive first_class : Type :=
| ASCII
| Invalid
| Lead (size : nat) (lo hi : Z).

Definition first (b : Z) : first_class :=
  if b <? 0x80 then ASCII
  else if b <? 0xC2 then Invalid
  else if b <? 0xE0 then Lead 2 0x80 0xBF
  else if b =? 0xE0 then Lead 3 0xA0 0xBF
  else if b <? 0xED then Lead 3 0x80 0xBF
  else if b =? 0xED then Lead 3 0x80 0x9F
  else if b <? 0xF0 then Lead 3 0x80 0xBF
  else if b =? 0xF0 then Lead 4 0x90 0xBF
  else if b <? 0xF4 then Lead 4 0x80 0xBF
  else if b =? 0xF4 then Lead 4 0x80 0x8F
  else Invalid.

(** [utf8.DecodeRuneInString]: the first rune of [s] and its width in
    bytes; [(RuneError, 1)] for a byte that starts no valid encoding. *)
Definition DecodeRuneInString (s : string) : rune * nat :=
  match s with
  | EmptyString => (RuneError, 0%nat)
  | String c0 rest =>
      let s0 := byte_val c0 in
      match first s0 with
      | ASCII => (s0, 1%nat)
      | Invalid => (RuneError, 1%nat)
      | Lead sz lo hi =>
          match rest with
          | EmptyString => (RuneError, 1%nat)
          | String c1 rest1 =>
              let s1 := byte_val c1 in
              if (String.length s <? sz)%nat then (RuneError, 1%nat)
              else if (s1 <? lo) || (hi <? s1) then (RuneError, 1%nat)
              else if (sz <=? 2)%nat then
                (Z.lor (Z.shiftl (Z.land s0 0x1F) 6) (Z.land s1 0x3F), 2%nat)
              else
                match rest1 with
                | EmptyString => (RuneError, 1%nat)
                | String c2 rest2 =>
                    let s2 := byte_val c2 in
                    if (s2 <? 0x80) || (0xBF <? s2) then (RuneError, 1%nat)
                    else if (sz <=? 3)%nat then
                      (Z.lor (Z.shiftl (Z.land s0 0x0F) 12)
                         (Z.lor (Z.shiftl (Z.land s1 0x3F) 6)
                            (Z.land s2 0x3F)),
                       3%nat)
                    else
                      match rest2 with
                      | EmptyString => (RuneError, 1%nat)
                      | String c3 _ =>
                          let s3 := byte_val c3 in
                          if (s3 <? 0x80) || (0xBF <? s3)
                          then (RuneError, 1%nat)
                          else
                            (Z.lor (Z.shiftl (Z.land s0 0x07) 18)
                               (Z.lor (Z.shiftl (Z.land s1 0x3F) 12)
                                  (Z.lor (Z.shiftl (Z.land s2 0x3F) 6)
                                     (Z.land s3 0x3F))),
                             4%nat)
                      end
                end
          end
      end
  end.

(** The runes that [for _, r := range s] goes through.  After a rune of
    width [size] the loop resumes [size] bytes further: past the first
    byte and [size - 1] more. *)
Equations? range_runes (s : string) : list rune by wf (String.length s) lt :=
  range_runes EmptyString := [];
  range_runes (String c rest) :=
    (DecodeRuneInString (String c rest)).1
      :: range_runes
           (string_drop (Nat.pred (DecodeRuneInString (String c rest)).2) rest).
Proof.
  clear range_runes.
  assert (H : forall n s,
             (String.length (string_drop n s) <= String.length s)%nat).
  { induction n as [|n IH]; intros [|a s]; simpl; try lia.
    specialize (IH s). lia. }
  match goal with
  | |- (String.length (string_drop ?n _) < _)%nat => specialize (H n rest)
  end.
  simpl. lia.
Qed.

(** [utf8.AppendRune] on an empty buffer: the encoding of [r]; what is
    not a Unicode scalar value is encoded as [RuneError]. *)
Definition encode3 (r : rune) : string :=
  string_of_bytes [Z.lor 0xE0 (Z.shiftr r 12);
                   Z.lor 0x80 (Z.land (Z.shiftr r 6) 0x3F);
                   Z.lor 0x80 (Z.land r 0x3F)].

Definition EncodeRune (r : rune) : string :=
  if (0 <=? r) && (r <=? 0x7F) then string_of_bytes [r]
  else if (0 <=? r) && (r <=? 0x7FF) then
    string_of_bytes [Z.lor 0xC0 (Z.shiftr r 6); Z.lor 0x80 (Z.land r 0x3F)]
  else if (r <? 0) || (MaxRune <? r) || ((0xD800 <=? r) && (r <=? 0xDFFF))
  then encode3 RuneError
  else if r <=? 0xFFFF then encode3 r
  else
    string_of_bytes [Z.lor 0xF0 (Z.shiftr r 18);
                     Z.lor 0x80 (Z.land (Z.shiftr r 12) 0x3F);
                     Z.lor 0x80 (Z.land (Z.shiftr r 6) 0x3F);
                     Z.lor 0x80 (Z.land r 0x3F)].

(** *** [strings.Builder] *)
Definition Builder : Type := string.
Definition WriteRune (b : Builder) (r : rune) : Builder := b +:+ EncodeRune r.

(** *** [unicode] and [strings] *)

Section Unicode.
(** [unicode.To(unicode.LowerCase, r)], the lower-case mapping of the
    Unicode tables.  The tables are data of the Go distribution; the
    code below consults them for runes above [MaxASCII] only. *)
Variable To_LowerCase : rune -> rune.

Definition unicode_ToLower (r : rune) : rune :=
  if r <=? 0x7F then
    (if (65 <=? r) && (r <=? 90) then r + 32 else r)
  else To_LowerCase r.

(** [strings.Map]: the mapped runes, encoded again; a negative result
    drops the rune. *)
Definition strings_Map (mapping : rune -> rune) (s : string) : string :=
  fold_left
    (fun b r => let r' := mapping r in if r' <? 0 then b else WriteRune b r')
    (range_runes s) EmptyString.

Definition lower_byte (c : ascii) : ascii :=
  let b := byte_val c in
  if (65 <=? b) && (b <=? 90) then byte_of (b + 32) else c.

(** [strings.ToLower]: bytes are lowered in place when [s] is pure
    ASCII, runes are mapped through [unicode.ToLower] otherwise. *)
Definition strings_ToLower (s : string) : string :=
  let isASCII := string_forallb (fun c => byte_val c <? 0x80) s in
  let hasUpper :=
    negb (string_forallb
            (fun c => negb ((65 <=? byte_val c) && (byte_val c <=? 90))) s) in
  if isASCII then
    (if hasUpper then string_map lower_byte s else s)
  else strings_Map unicode_ToLower s.
End Unicode.

(** [strings.TrimSpace]: [s] without its leading and trailing white
    space.  White space is what [unicode.IsSpace] accepts; the three
    predicates below recognise the UTF-8 encodings of those runes, by
    their length. *)
Definition IsSpace (r : rune) : bool :=
  ((0x09 <=? r) && (r <=? 0x0D)) || (r =? 0x20) || (r =? 0x85) || (r =? 0xA0)
  || (r =? 0x1680) || ((0x2000 <=? r) && (r <=? 0x200A))
  || (r =? 0x2028) || (r =? 0x2029) || (r =? 0x202F) || (r =? 0x205F)
  || (r =? 0x3000).

Definition space1 (b0 : Z) : bool :=
  ((0x09 <=? b0) && (b0 <=? 0x0D)) || (b0 =? 0x20).

Definition space2 (b0 b1 : Z) : bool :=
  (b0 =? 0xC2) && ((b1 =? 0x85) || (b1 =? 0xA0)).

Definition space3 (b0 b1 b2 : Z) : bool :=
  ((b0 =? 0xE1) && (b1 =? 0x9A) && (b2 =? 0x80))
  || ((b0 =? 0xE2) && (b1 =? 0x80)
      && (((0x80 <=? b2) && (b2 <=? 0x8A))
          || (b2 =? 0xA8) || (b2 =? 0xA9) || (b2 =? 0xAF)))
  || ((b0 =? 0xE2) && (b1 =? 0x81) && (b2 =? 0x9F))
  || ((b0 =? 0xE3) && (b1 =? 0x80) && (b2 =? 0x80)).

(** Leading white space removed.  With [backwards] the bytes of [s] come
    last byte first, as when trimming from the right end. *)
Fixpoint trim_leading (backwards : bool) (s : string) : string :=
  match s with
  | EmptyString => s
  | String c0 rest =>
      if space1 (byte_val c0) then trim_leading backwards rest
      else
        match rest with
        | EmptyString => s
        | String c1 rest1 =>
            if (if backwards then space2 (byte_val c1) (byte_val c0)
                else space2 (byte_val c0) (byte_val c1))
            then trim_leading backwards rest1
            else
              match rest1 with
              | EmptyString => s
              | String c2 rest2 =>
                  if (if backwards
                      then space3 (byte_val c2) (byte_val c1) (byte_val c0)
                      else space3 (byte_val c0) (byte_val c1) (byte_val c2))
                  then trim_leading backwards rest2
                  else s
              end
        end
  end.

Definition strings_TrimSpace (s : string) : string :=
  string_rev (trim_leading true (string_rev (trim_leading false s))).

(** [strconv.FormatInt(n, 10)] *)
Definition FormatInt (n : Z) : string := NilZero.string_of_int (Z.to_int n).


(** *** [strconv.FormatFloat(x, 'f', -1, 64)]

    The shortest decimal that reads back as [x], printed without an
    exponent.  A finite [x = m * 2^e] is the integer [D] below times a
    power of ten; every real between [lower] and [upper] (the midpoints to
    the neighbouring floats, included when [m] is even) rounds to [x].
    The digits of [D] are cut as early as the cut, or the cut plus one
    unit, falls between the two. *)

Fixpoint zeros (n : nat) : string :=
  match n with
  | O => EmptyString
  | S k => String "0" (zeros k)
  end.

Fixpoint string_take (n : nat) (s : string) : string :=
  match n, s with
  | S k, String c rest => String c (string_take k rest)
  | _, _ => EmptyString
  end.

(** Tries [n], [n + 1], ... digits; [D] has [len] digits, and [L4], [U4]
    are four times [lower] and [upper], on the scale of [D]. *)
Fixpoint shortest_from (fuel n len : nat) (D L4 U4 : Z) (inclusive : bool)
    : option (Z * Z) :=
  match fuel with
  | O => None
  | S fuel' =>
      let s := 10 ^ Z.of_nat (len - n) in
      let down := D / s in
      let up := down + 1 in
      let okdown :=
        if inclusive then L4 <=? 4 * down * s else L4 <? 4 * down * s in
      let okup :=
        if inclusive then 4 * up * s <=? U4 else 4 * up * s <? U4 in
      let rem2 := 2 * (D - down * s) in
      let nearest_up := (s <? rem2) || ((s =? rem2) && Z.odd down) in
      if D =? down * s then Some (down, Z.of_nat (len - n))
      else if okdown && okup then
        Some (if nearest_up then up else down, Z.of_nat (len - n))
      else if okdown then Some (down, Z.of_nat (len - n))
      else if okup then Some (up, Z.of_nat (len - n))
      else shortest_from fuel' (S n) len D L4 U4 inclusive
  end.

Fixpoint strip_zeros (fuel : nat) (c p : Z) : Z * Z :=
  match fuel with
  | O => (c, p)
  | S k =>
      if (c =? 0) || negb (c mod 10 =? 0) then (c, p)
      else strip_zeros k (c / 10) (p + 1)
  end.

(** The digits [c] and the exponent [p] of the shortest decimal
    [c * 10^p] for [m * 2^e]. *)
Definition shortest (m : positive) (e : Z) : Z * Z :=
  let B := if 0 <=? e then 2 ^ e else 5 ^ (- e) in
  let q := if 0 <=? e then 0 else e in
  let D := Z.pos m * B in
  let U4 := (4 * Z.pos m + 2) * B in
  let L4 :=
    if (Z.pos m =? 2 ^ 52) && negb (e =? -1074)
    then (4 * Z.pos m - 1) * B
    else (4 * Z.pos m - 2) * B in
  let len := String.length (FormatInt D) in
  match shortest_from len 1 len D L4 U4 (Z.even (Z.pos m)) with
  | Some (c, k) => strip_zeros len c (k + q)
  | None => (D, q)
  end.

(** The ['f'] layout of [c * 10^p]. *)
Definition fmtF (neg : bool) (c p : Z) : string :=
  let digs := FormatInt c in
  let nd := Z.of_nat (String.length digs) in
  let dp := nd + p in
  let int_part :=
    if 0 <? dp
    then string_take (Z.to_nat dp) digs +:+ zeros (Z.to_nat (dp - nd))
    else "0" in
  let frac :=
    if dp <? nd
    then "." +:+ zeros (Z.to_nat (- dp)) +:+ string_drop (Z.to_nat dp) digs
    else "" in
  (if neg then "-" else "") +:+ int_part +:+ frac.

Definition FormatFloat (x : float64) : string :=
  match x with
  | S754_nan => "NaN"
  | S754_infinity false => "+Inf"
  | S754_infinity true => "-Inf"
  | S754_zero s => if s then "-0" else "0"
  | S754_finite s m e => let '(c, p) := shortest m e in fmtF s c p
  end.


(** ** [time.Time]

    The code uses times in two ways.  Times that are compared and moved
    ([Now], [Add], [Before]) are instants: nanoseconds on the clock.
    Times that are only printed are given by what [Format] reads from
    them, the calendar fields in the time's own location. *)
Definition Instant : Type := Z.

Record CalendarTime : Type := {
  Year : Z;
  Month : Z;
  Day : Z;
  Hour : Z;
  Minute_ : Z;
  Second_ : Z
}.

(** [appendInt] of package [time]: [x] in decimal, zero-padded to
    [width] digits, after its sign. *)
Definition appendInt (x : Z) (width : nat) : string :=
  let digits := FormatInt (Z.abs x) in
  (if x <? 0 then "-" else "")
  +:+ zeros (width - String.length digits) +:+ digits.

(** [Time.Format] for layouts made of the elements [2006], [01], [02],
    [15], [04], [05] and of separators among [-], [:] and the space:
    the two layouts of the repository, [2006-01-02 15:04:05] and
    [2006-01-02 15:04], are of that kind. *)
Fixpoint Time_Format (layout : string) (t : CalendarTime) : string :=
  match layout with
  | String "2" (String "0" (String "0" (String "6" rest))) =>
      appendInt (Year t) 4 +:+ Time_Format rest t
  | String "0" (String "1" rest) => appendInt (Month t) 2 +:+ Time_Format rest t
  | String "0" (String "2" rest) => appendInt (Day t) 2 +:+ Time_Format rest t
  | String "1" (String "5" rest) => appendInt (Hour t) 2 +:+ Time_Format rest t
  | String "0" (String "4" rest) => appendInt (Minute_ t) 2 +:+ Time_Format rest t
  | String "0" (String "5" rest) => appendInt (Second_ t) 2 +:+ Time_Format rest t
  | String c rest => String c (Time_Format rest t)
  | EmptyString => EmptyString
  end.

(** The outcome of a function that may panic. *)
Inductive outcome (A : Type) : Type :=
| Returned (a : A)
| Panicked (reason : string).
Arguments Returned {A} a.
Arguments Panicked {A} reason.

End Go.

Module Aws.
Import Go.

(** ** [SafeRetry] *)

(** The sleep of iteration [i]:
    [time.Duration(float64(baseSleep) * (1.0 + float64(i)*0.35))]. *)
Definition backoff (baseSleep : Duration) (i : Z) : Duration :=
  int64_of_float64
    (f64_mul (float64_of_int baseSleep)
             (f64_add (f64_const 1 1)
                      (f64_mul (float64_of_int i) (f64_const 35 100)))).

(** What an observer of one [SafeRetry] call sees: each invocation of
    [fn] with its outcome, and each [time.Sleep] with its duration. *)
Inductive event : Type :=
| Invoked (r : error)
| Slept (d : Duration).

(** How the [for] loop is left: through [return nil], or by running out
    of iterations with the last error in [last]. *)
Inductive loop_exit : Type :=
| ReturnedNil
| Exhausted (last : error).

Section SafeRetry.
(** [W] is the state of everything outside [SafeRetry] (the AWS
    account, the clock, ...); the closure [fn] and [time.Sleep] both
    act on it. *)
Context {W : Type}.
Variable Sleep : Duration -> W -> W.

(** The loop [for i := 0; i < retries; i++], entered with [remaining =
    retries - i] iterations to go. *)
Fixpoint SafeRetry_loop (fn : W -> error * W) (baseSleep : Duration)
    (remaining : nat) (i : Z) (last : error) (w : W)
    : loop_exit * W * list event :=
  match remaining with
  | O => (Exhausted last, w, [])
  | S k =>
      let '(err, w1) := fn w in
      match err with
      | None => (ReturnedNil, w1, [Invoked None])
      | Some _ =>
          let d := backoff baseSleep i in
          let '(x, w2, tr) :=
            SafeRetry_loop fn baseSleep k (i + 1) err (Sleep d w1) in
          (x, w2, Invoked err :: Slept d :: tr)
      end
  end.

(** [SafeRetry] together with the events it produced. *)
Definition SafeRetry_run (actionName : string) (retries : Z)
    (baseSleep : Duration) (fn : W -> error * W) (w : W)
    : error * W * list event :=
  let retries := if retries <? 1 then 1 else retries in
  match SafeRetry_loop fn baseSleep (Z.to_nat retries) 0 None w with
  | (ReturnedNil, w', tr) => (None, w', tr)
  | (Exhausted last, w', tr) =>
      (Some (actionName +:+ " 失败：" +:+ fmt_v last), w', tr)
  end.

Definition SafeRetry (actionName : string) (retries : Z)
    (baseSleep : Duration) (fn : W -> error * W) (w : W) : error * W :=
  let '(err, w', _) := SafeRetry_run actionName retries baseSleep fn w in
  (err, w').
End SafeRetry.

(** *** Reading a trace *)

Definition invocations (tr : list event) : list error :=
  omap (fun ev => match ev with Invoked r => Some r | Slept _ => None end) tr.

Definition failures (tr : list event) : list string :=
  omap (fun ev => match ev with Invoked (Some m) => Some m | _ => None end) tr.

Definition sleeps (tr : list event) : list Duration :=
  omap (fun ev => match ev with Slept d => Some d | Invoked _ => None end) tr.

(** The trace of [errs] failed rounds in a row, the first of them being
    iteration [i]. *)
Fixpoint failed_rounds (baseSleep : Duration) (i : Z) (errs : list string)
    : list event :=
  match errs with
  | [] => []
  | e :: es =>
      Invoked (Some e) :: Slept (backoff baseSleep i)
        :: failed_rounds baseSleep (i + 1) es
  end.

(** A closure that differs from [fn] only in which non-nil error it
    reports. *)
Definition relabel {W : Type} (g : string -> string) (fn : W -> error * W)
    : W -> error * W :=
  fun w => let '(err, w') := fn w in (g <$> err, w').

Definition erase (ev : event) : event :=
  match ev with
  | Invoked (Some _) => Invoked (Some "")
  | other => other
  end.

(** The error left in [last] after the failed rounds [errs]. *)
Definition last_error (errs : list string) (init : error) : error :=
  match last errs with
  | Some e => Some e
  | None => init
  end.

(** ** [sanitize] *)

Section Sanitize.
Variable To_LowerCase : rune -> rune.

Definition sanitize (s : string) : string :=
  let s := strings_ToLower To_LowerCase s in
  let b : Builder :=
    fold_left
      (fun b r =>
         if ((97 <=? r) && (r <=? 122)) || ((48 <=? r) && (r <=? 57))
            || (r =? 45)
         then WriteRune b r
         else b)
      (range_runes s) EmptyString in
  let out := b in
  if String.eqb out "" then "x" else out.
End Sanitize.

(** The helper as the specification words it: the lower-case form of
    [s], without the characters other than [a-z], [0-9] and [-]; ["x"]
    when nothing is left. *)
Definition allowed_char (c : ascii) : bool :=
  let b := byte_val c in
  ((97 <=? b) && (b <=? 122)) || ((48 <=? b) && (b <=? 57)) || (b =? 45).

Definition sanitize_spec (lowercase : string -> string) (s : string) : string :=
  let kept := string_filter allowed_char (lowercase s) in
  if String.eqb kept "" then "x" else kept.

(** ** The vCPU quota lookup ([quota.go]) *)

Definition quotaCodeOnDemandStdVcpu : string := "L-1216C47A".
Definition quotaCodeSpotStdVcpu : string := "L-34B43A08".

(** [aws.ToString]: the string behind a pointer, [""] behind [nil]. *)
Definition aws_ToString (p : option string) : string :=
  match p with
  | Some s => s
  | None => ""
  end.

Definition floatPtrToString (v : option float64) : string :=
  match v with
  | None => ""
  | Some f =>
      if f64_eqb f (float64_of_int (int64_of_float64 f))
      then FormatInt (int64_of_float64 f)
      else FormatFloat f
  end.

(** The parts of the Service Quotas types the code reads. *)
Record ServiceQuota : Type := {
  QuotaName : option string;
  Value : option float64
}.

Record GetServiceQuotaOutput : Type := {
  Quota : option ServiceQuota
}.

Record GetServiceQuotaInput : Type := {
  ServiceCode : option string;
  QuotaCode : option string
}.

(** A [*servicequotas.Client]: what a call returns is decided by the
    service, whose state [S] the call may change. *)
Record QuotasClient (S : Type) : Type := {
  GetServiceQuota :
    GetServiceQuotaInput -> S -> (option GetServiceQuotaOutput * error) * S
}.
Arguments GetServiceQuota {S} _ _ _.

(** The two requests, and the text of the error returned when neither
    brings a value. *)
Definition onDemandInput : GetServiceQuotaInput :=
  {| ServiceCode := Some "ec2"; QuotaCode := Some quotaCodeOnDemandStdVcpu |}.

Definition spotInput : GetServiceQuotaInput :=
  {| ServiceCode := Some "ec2"; QuotaCode := Some quotaCodeSpotStdVcpu |}.

Definition quota_error_text (e1 e2 : error) : string :=
  "配额未返回（可能无权限/region不对/网络或代理问题）：onDemandErr="
  +:+ fmt_v e1 +:+ "; spotErr=" +:+ fmt_v e2.

(** The value and name read off one answer. *)
Definition quota_fields (out : option GetServiceQuotaOutput) (e : error)
    : string * string :=
  match e, out with
  | None, Some {| Quota := Some q |} =>
      (floatPtrToString (Value q), aws_ToString (QuotaName q))
  | _, _ => ("", "")
  end.

(** Results in the order of the Go signature:
    [(onVal, spotVal, onName, spotName, err)]. *)
Definition TestVCPUQuotas {S : Type} (cli : option (QuotasClient S)) (w : S)
    : (string * string * string * string * error) * S :=
  match cli with
  | None => (("", "", "", "", Some "servicequotas client is nil"), w)
  | Some cli =>
      (* On-Demand *)
      let '((onOut, e1), w1) := GetServiceQuota cli onDemandInput w in
      let '(onVal, onName) := quota_fields onOut e1 in
      (* Spot *)
      let '((spotOut, e2), w2) := GetServiceQuota cli spotInput w1 in
      let '(spotVal, spotName) := quota_fields spotOut e2 in
      (* neither has a value: report both errors *)
      if String.eqb onVal "" && String.eqb spotVal "" then
        (("", "", "", "", Some (quota_error_text e1 e2)), w2)
      else ((onVal, spotVal, onName, spotName, None), w2)
  end.

Definition quota_err (r : (string * string * string * string * error)) : error :=
  r.2.

(** ** Lightsail ([lightsail.go]) *)

(** *** The SDK types, as far as the code reads them

    A pointer field is an [option]; structs with a [Name] field get a
    module of their own. *)

Module StaticIp.
Record t : Type := {
  Name : option string;
  IpAddress : option string;
  AttachedTo : option string;
  IsAttached : option bool
}.
End StaticIp.

Module InstanceState.
Record t : Type := { Name : option string }.
End InstanceState.

Record ResourceLocation : Type := { AvailabilityZone : option string }.

Module Instance.
Record t : Type := {
  Name : option string;
  State : option InstanceState.t;
  PublicIpAddress : option string;
  Ipv6Addresses : list string;
  Location : option ResourceLocation;
  CreatedAt : option CalendarTime;
  BundleId : option string
}.
End Instance.

Record GetInstancesOutput : Type := { Instances : list Instance.t }.
Record GetStaticIpsOutput : Type := { StaticIps : list StaticIp.t }.
Record GetStaticIpOutput : Type := { StaticIp : option StaticIp.t }.

Module InstanceView.
Record t : Type := {
  Name : string;
  State : string;
  PublicIPv4 : string;
  PublicIPv6 : string;
  StaticIPv4 : string;
  Zone : string;
  BundleID : string;
  Created : string
}.
End InstanceView.

(** *** The interface [LightsailAPI]

    Each method is a transition of the service, whose state [S] only the
    service knows.  The requests carry a single name; for the calls whose
    output every caller discards only the error is kept. *)
Record LightsailAPI (S : Type) : Type := {
  GetInstances : S -> (option GetInstancesOutput * error) * S;
  GetStaticIps : S -> (option GetStaticIpsOutput * error) * S;
  GetStaticIp : string -> S -> (option GetStaticIpOutput * error) * S;
  DetachStaticIp : string -> S -> error * S;
  ReleaseStaticIp : string -> S -> error * S;
  DeleteInstance : string -> S -> error * S
}.
Arguments GetInstances {S} _ _.
Arguments GetStaticIps {S} _ _.
Arguments GetStaticIp {S} _ _ _.
Arguments DetachStaticIp {S} _ _ _.
Arguments ReleaseStaticIp {S} _ _ _.
Arguments DeleteInstance {S} _ _ _.

(** The requests sent, for the record. *)
Inductive Call : Type :=
| GetInstancesCall
| GetStaticIpsCall
| GetStaticIpCall (StaticIpName : string)
| DetachStaticIpCall (StaticIpName : string)
| ReleaseStaticIpCall (StaticIpName : string)
| DeleteInstanceCall (InstanceName : string).

(** The world a Lightsail function runs in: the clock, the service, and
    the requests issued so far.  Time passes in [time.Sleep] only. *)
Record World (S : Type) : Type := {
  now : Instant;
  service : S;
  issued : list Call
}.
Arguments now {S} _.
Arguments service {S} _.
Arguments issued {S} _.

Definition time_Sleep {S : Type} (d : Duration) (w : World S) : World S :=
  {| now := now w + Z.max 0 d; service := service w; issued := issued w |}.

Definition call {S A : Type} (c : Call) (method : S -> A * S) (w : World S)
    : A * World S :=
  let '(a, s') := method (service w) in
  (a, {| now := now w; service := s'; issued := issued w ++ [c] |}).

Definition str (p : option string) : string :=
  match p with
  | Some s => s
  | None => ""
  end.

(** The requests of the static-address cleanup. *)
Definition cleanup_call (c : Call) : Prop :=
  match c with
  | GetStaticIpsCall | GetStaticIpCall _
  | DetachStaticIpCall _ | ReleaseStaticIpCall _ => True
  | GetInstancesCall | DeleteInstanceCall _ => False
  end.

(** [w'] comes after [w]: the requests of [w], then requests that all
    satisfy [P]. *)
Definition issues {S : Type} (P : Call -> Prop) (w w' : World S) : Prop :=
  exists cs, issued w' = issued w ++ cs /\ Forall P cs.

Section Lightsail.
Context {S : Type}.
Variable cli : LightsailAPI S.

(** *** [ListInstances] *)

(** The loop over [sipOut.StaticIps] filling [staticMap]. *)
Definition staticMap_of (sipOut : option GetStaticIpsOutput) : gmap string string :=
  match sipOut with
  | Some sipOut =>
      fold_left
        (fun (staticMap : gmap string string) si =>
           match StaticIp.AttachedTo si, StaticIp.IpAddress si with
           | Some attachedTo, Some ipAddress =>
               match StaticIp.IsAttached si with
               | None | Some true => <[attachedTo := ipAddress]> staticMap
               | Some false => staticMap
               end
           | _, _ => staticMap
           end)
        (StaticIps sipOut) ∅
  | None => ∅
  end.

(** One round of the loop over [out.Instances]; [ins.Location] is
    dereferenced without a check. *)
Definition view_of (staticMap : gmap string string) (ins : Instance.t)
    : outcome InstanceView.t :=
  let name := str (Instance.Name ins) in
  let state :=
    match Instance.State ins with
    | Some st =>
        match InstanceState.Name st with
        | Some n => n
        | None => ""
        end
    | None => ""
    end in
  let public4 := str (Instance.PublicIpAddress ins) in
  let public6 :=
    match Instance.Ipv6Addresses ins with
    | a :: _ => a
    | [] => ""
    end in
  match Instance.Location ins with
  | None => Panicked "invalid memory address or nil pointer dereference"
  | Some location =>
      let zone := str (AvailabilityZone location) in
      let created :=
        match Instance.CreatedAt ins with
        | Some t => Time_Format "2006-01-02 15:04:05" t
        | None => ""
        end in
      Returned
        {| InstanceView.Name := name;
           InstanceView.State := state;
           InstanceView.PublicIPv4 := public4;
           InstanceView.PublicIPv6 := public6;
           InstanceView.StaticIPv4 := default "" (staticMap !! name);
           InstanceView.Zone := zone;
           InstanceView.BundleID := str (Instance.BundleId ins);
           InstanceView.Created := created |}
  end.

Fixpoint views_loop (staticMap : gmap string string)
    (instances : list Instance.t) (views : list InstanceView.t)
    : outcome (list InstanceView.t) :=
  match instances with
  | [] => Returned views
  | ins :: rest =>
      match view_of staticMap ins with
      | Returned v => views_loop staticMap rest (views ++ [v])
      | Panicked reason => Panicked reason
      end
  end.

Definition ListInstances (w : World S)
    : outcome (list InstanceView.t * error) * World S :=
  let '((out, err), w1) := call GetInstancesCall (GetInstances cli) w in
  match err with
  | Some e => (Returned ([], Some ("拉取实例失败：" +:+ e)), w1)
  | None =>
      (* static ips: the error is dropped *)
      let '((sipOut, _), w2) := call GetStaticIpsCall (GetStaticIps cli) w1 in
      let staticMap := staticMap_of sipOut in
      match out with
      | None =>
          (Panicked "invalid memory address or nil pointer dereference", w2)
      | Some out =>
          match views_loop staticMap (Instances out) [] with
          | Returned views => (Returned (views, None), w2)
          | Panicked reason => (Panicked reason, w2)
          end
      end
  end.

(** *** [FindAttachedStaticIPName] *)

Fixpoint find_attached (instanceName : string) (staticIps : list StaticIp.t)
    : string * string :=
  match staticIps with
  | [] => ("", "")
  | si :: rest =>
      match StaticIp.AttachedTo si with
      | Some attachedTo =>
          if String.eqb attachedTo instanceName then
            match StaticIp.IsAttached si with
            | None | Some true =>
                (str (StaticIp.Name si), str (StaticIp.IpAddress si))
            | Some false => find_attached instanceName rest
            end
          else find_attached instanceName rest
      | None => find_attached instanceName rest
      end
  end.

Definition FindAttachedStaticIPName (instanceName : string) (w : World S)
    : (string * string) * World S :=
  let '((out, err), w1) := call GetStaticIpsCall (GetStaticIps cli) w in
  match err, out with
  | None, Some out => (find_attached instanceName (StaticIps out), w1)
  | _, _ => (("", ""), w1)
  end.

(** *** [WaitStaticIPDetached] *)

(** The three tests after [GetStaticIp] that make the wait return
    [true]. *)
Definition seen_detached (answer : option GetStaticIpOutput * error) : bool :=
  match answer with
  | (_, Some _) | (None, _) | (Some {| StaticIp := None |}, _) => true
  | (Some {| StaticIp := Some staticIp |}, None) =>
      match StaticIp.IsAttached staticIp with
      | Some false => true
      | _ =>
          match StaticIp.AttachedTo staticIp with
          | None => true
          | Some attachedTo => String.eqb attachedTo ""
          end
      end
  end.

(** The loop [for time.Now().Before(deadline)].  Each round that does not
    return sleeps two seconds; the rounds left are counted by the
    two-second slots before the deadline. *)
Definition slots_before (deadline : Instant) (t : Instant) : nat :=
  Z.to_nat ((deadline - t + (2 * Second - 1)) / (2 * Second)).

Equations? WaitStaticIPDetached_loop (staticIPName : string)
    (deadline : Instant) (w : World S) : bool * World S
  by wf (slots_before deadline (now w)) lt :=
WaitStaticIPDetached_loop staticIPName deadline w
  with inspect (now w <? deadline) := {
  | exist _ false _ => (false, w)
  | exist _ true Hbefore
    with inspect
           (seen_detached
              (call (GetStaticIpCall staticIPName)
                    (GetStaticIp cli staticIPName) w).1) := {
    | exist _ true _ =>
        (true,
         (call (GetStaticIpCall staticIPName)
               (GetStaticIp cli staticIPName) w).2)
    | exist _ false _ =>
        WaitStaticIPDetached_loop staticIPName deadline
          (time_Sleep (2 * Second)
             (call (GetStaticIpCall staticIPName)
                   (GetStaticIp cli staticIPName) w).2) } }.
Proof.
  apply Z.ltb_lt in Hbefore.
  unfold slots_before, time_Sleep, call. cbn [now].
  destruct (GetStaticIp cli staticIPName (service w)) as [a s']. cbn [now snd].
  change (2 * Second) with 2000000000 in *.
  apply Z2Nat.inj_lt; [apply Z.div_pos; lia | apply Z.div_pos; lia |].
  Z.div_mod_to_equations. lia.
Qed.

Definition WaitStaticIPDetached (staticIPName : string) (timeout : Duration)
    (w : World S) : bool * World S :=
  let deadline := now w + timeout in
  WaitStaticIPDetached_loop staticIPName deadline w.

(** *** [DeletePreviousStaticIPOnlyForInstance] *)

(** The closing loop, "wait deleted": any error of [GetStaticIp] counts
    as the address being gone. *)
Equations? wait_deleted_loop (oldName : string) (deadline : Instant)
    (w : World S) : (string * error) * World S
  by wf (slots_before deadline (now w)) lt :=
wait_deleted_loop oldName deadline w with inspect (now w <? deadline) := {
  | exist _ false _ =>
      (("", Some ("旧静态IP仍存在（释放未生效）：" +:+ oldName)), w)
  | exist _ true Hbefore
    with inspect
           (is_nil (call (GetStaticIpCall oldName)
                         (GetStaticIp cli oldName) w).1.2) := {
    | exist _ false _ =>
        ((oldName, None),
         (call (GetStaticIpCall oldName) (GetStaticIp cli oldName) w).2)
    | exist _ true _ =>
        wait_deleted_loop oldName deadline
          (time_Sleep (2 * Second)
             (call (GetStaticIpCall oldName)
                   (GetStaticIp cli oldName) w).2) } }.
Proof.
  apply Z.ltb_lt in Hbefore.
  unfold slots_before, time_Sleep, call. cbn [now].
  destruct (GetStaticIp cli oldName (service w)) as [a s']. cbn [now snd].
  change (2 * Second) with 2000000000 in *.
  apply Z2Nat.inj_lt; [apply Z.div_pos; lia | apply Z.div_pos; lia |].
  Z.div_mod_to_equations. lia.
Qed.

Definition DeletePreviousStaticIPOnlyForInstance (instanceName : string)
    (w : World S) : (string * error) * World S :=
  let '((oldName, _), w1) := FindAttachedStaticIPName instanceName w in
  if String.eqb oldName "" then (("", None), w1)
  else
    match SafeRetry time_Sleep "解绑旧静态IP" 8 (1200 * Millisecond)
            (call (DetachStaticIpCall oldName) (DetachStaticIp cli oldName)) w1
    with
    | (Some err, w2) => (("", Some err), w2)
    | (None, w2) =>
        let '(ok, w3) := WaitStaticIPDetached oldName (120 * Second) w2 in
        if negb ok then (("", Some ("旧静态IP解绑超时：" +:+ oldName)), w3)
        else
          match SafeRetry time_Sleep "释放旧静态IP" 12 (1300 * Millisecond)
                  (call (ReleaseStaticIpCall oldName)
                        (ReleaseStaticIp cli oldName)) w3
          with
          | (Some err, w4) => (("", Some err), w4)
          | (None, w4) =>
              (* wait deleted *)
              let deadline := now w4 + 90 * Second in
              wait_deleted_loop oldName deadline w4
          end
    end.

(** *** [DeleteInstanceWithStaticIPCleanup] *)

Definition DeleteInstanceWithStaticIPCleanup (name : string) (w : World S)
    : error * World S :=
  (* try detach & release any attached static ip first *)
  let '(_, w1) := DeletePreviousStaticIPOnlyForInstance name w in
  SafeRetry time_Sleep "删除实例" 8 (1200 * Millisecond)
    (call (DeleteInstanceCall name) (DeleteInstance cli name)) w1.

End Lightsail.

End Aws.

Module Store.
Import Go.

(** ** The credential store ([db.go])

    The database is the content of its two tables, the counters behind
    [AUTOINCREMENT], the value of [CURRENT_TIMESTAMP], and what the driver
    is going to answer: each time the code talks to the driver
    ([PrepareContext], [ExecContext], [Scan], ...), the driver either
    serves the request or fails with an error of its own (a locked file,
    a cancelled context, ...); [faults] lists these answers in advance,
    [None] for "served", and an exhausted list means no more failures. *)

Record UserRow : Type := {
  id : Z;
  username : string;
  password_hash : string;
  created_at : string
}.

Record KeyRow : Type := {
  key_id : Z;           (* column [id] *)
  user_id : Z;
  name : string;
  access_key : string;
  secret_key : string;
  proxy : string;
  key_created_at : string   (* column [created_at] *)
}.

Record DB : Type := {
  users : list UserRow;
  api_keys : list KeyRow;
  users_seq : Z;
  api_keys_seq : Z;
  CURRENT_TIMESTAMP : string;
  faults : list error
}.

Definition with_faults (fs : list error) (db : DB) : DB :=
  {| users := users db; api_keys := api_keys db;
     users_seq := users_seq db; api_keys_seq := api_keys_seq db;
     CURRENT_TIMESTAMP := CURRENT_TIMESTAMP db; faults := fs |}.

Definition with_users (rows : list UserRow) (seq : Z) (db : DB) : DB :=
  {| users := rows; api_keys := api_keys db;
     users_seq := seq; api_keys_seq := api_keys_seq db;
     CURRENT_TIMESTAMP := CURRENT_TIMESTAMP db; faults := faults db |}.

Definition with_api_keys (rows : list KeyRow) (seq : Z) (db : DB) : DB :=
  {| users := users db; api_keys := rows;
     users_seq := users_seq db; api_keys_seq := seq;
     CURRENT_TIMESTAMP := CURRENT_TIMESTAMP db; faults := faults db |}.

(** One exchange with the driver. *)
Definition driver (db : DB) : error * DB :=
  match faults db with
  | [] => (None, db)
  | answer :: rest => (answer, with_faults rest db)
  end.

(** The result of [QueryRowContext(...).Scan(...)]: a row, the sentinel
    [sql.ErrNoRows], or another error. *)
Inductive scanned (A : Type) : Type :=
| Row (a : A)
| ErrNoRows
| ScanError (msg : string).
Arguments Row {A} a.
Arguments ErrNoRows {A}.
Arguments ScanError {A} msg.

(** The id [AUTOINCREMENT] gives to a new row: one more than the largest
    id the table has or ever had. *)
Definition next_id (ids : list Z) (seq : Z) : Z :=
  fold_right Z.max seq ids + 1.

(** *** The statements *)

(** [SELECT ... FROM users WHERE username = ? LIMIT 1] *)
Definition select_user (name : string) (db : DB) : scanned UserRow * DB :=
  match driver db with
  | (Some err, db) => (ScanError err, db)
  | (None, db) =>
      match find (fun row => String.eqb (username row) name) (users db) with
      | Some row => (Row row, db)
      | None => (ErrNoRows, db)
      end
  end.

(** [INSERT INTO users (username, password_hash) VALUES (?, ?)]; the
    column [username] is [UNIQUE]. *)
Definition insert_user (name hash : string) (db : DB) : error * DB :=
  match driver db with
  | (Some err, db) => (Some err, db)
  | (None, db) =>
      if existsb (fun row => String.eqb (username row) name) (users db)
      then (Some "constraint failed: UNIQUE constraint failed: users.username (2067)",
            db)
      else
        let new_id := next_id (map id (users db)) (users_seq db) in
        (None,
         with_users
           (users db ++ [{| id := new_id; username := name;
                            password_hash := hash;
                            created_at := CURRENT_TIMESTAMP db |}])
           new_id db)
  end.

(** [INSERT INTO api_keys (user_id, name, access_key, secret_key, proxy)
    VALUES (?, ?, ?, ?, ?)] *)
Definition insert_key (userID : Z) (name_ accessKey secretKey proxy_ : string)
    (db : DB) : error * DB :=
  match driver db with
  | (Some err, db) => (Some err, db)
  | (None, db) =>
      let new_id := next_id (map key_id (api_keys db)) (api_keys_seq db) in
      (None,
       with_api_keys
         (api_keys db ++ [{| key_id := new_id; user_id := userID;
                             name := name_; access_key := accessKey;
                             secret_key := secretKey; proxy := proxy_;
                             key_created_at := CURRENT_TIMESTAMP db |}])
         new_id db)
  end.

(** [ORDER BY id DESC], by insertion. *)
Fixpoint insert_desc (row : KeyRow) (sorted : list KeyRow) : list KeyRow :=
  match sorted with
  | [] => [row]
  | r :: rest =>
      if key_id r <=? key_id row then row :: sorted
      else r :: insert_desc row rest
  end.

Definition order_by_id_desc (rows : list KeyRow) : list KeyRow :=
  fold_right insert_desc [] rows.

(** [SELECT ... FROM api_keys WHERE user_id = ? ORDER BY id DESC] *)
Definition select_keys (userID : Z) (db : DB) : list KeyRow :=
  order_by_id_desc (filter (fun row => user_id row = userID) (api_keys db)).

(** [DELETE FROM api_keys WHERE id = ? AND user_id = ?] *)
Definition delete_key (keyID userID : Z) (db : DB) : error * DB :=
  match driver db with
  | (Some err, db) => (Some err, db)
  | (None, db) =>
      (None,
       with_api_keys
         (filter (fun row => ~ (key_id row = keyID /\ user_id row = userID))
                 (api_keys db))
         (api_keys_seq db) db)
  end.

(** [UPDATE api_keys SET name = ?, access_key = ?, secret_key = ?,
    proxy = ? WHERE id = ? AND user_id = ?] *)
Definition update_key (name_ accessKey secretKey proxy_ : string)
    (keyID userID : Z) (db : DB) : error * DB :=
  match driver db with
  | (Some err, db) => (Some err, db)
  | (None, db) =>
      (None,
       with_api_keys
         (map (fun row =>
                 if decide (key_id row = keyID /\ user_id row = userID)
                 then {| key_id := key_id row; user_id := user_id row;
                         name := name_; access_key := accessKey;
                         secret_key := secretKey; proxy := proxy_;
                         key_created_at := key_created_at row |}
                 else row)
              (api_keys db))
         (api_keys_seq db) db)
  end.

(** *** The Go structs *)

Record User : Type := {
  User_ID : Z;
  User_Username : string;
  User_PasswordHash : string
}.

Record Key : Type := {
  ID : Z;
  UserID : Z;
  Name : string;
  AccessKey : string;
  SecretKey : string;
  Proxy : string;
  CreatedAt : CalendarTime
}.

Section Store.
(** Package [bcrypt] and [time.Parse] are taken as they come:
    [GenerateFromPassword] returns a hash or an error,
    [CompareHashAndPassword] an error unless the password matches, and
    [time.Parse] a time, the zero time when it fails. *)
Variable GenerateFromPassword : string -> Z -> string * error.
Variable CompareHashAndPassword : string -> string -> error.
Variable time_Parse : string -> string -> CalendarTime * error.

Definition DefaultCost : Z := 10.

Definition EnsureUser (username_ password : string) (db : DB)
    : (bool * error) * DB :=
  let username_ := strings_TrimSpace username_ in
  let password := strings_TrimSpace password in
  if String.eqb username_ "" || String.eqb password "" then
    ((false, errors_New "username/password required"), db)
  else
    match driver db with                          (* PrepareContext *)
    | (Some err, db) => ((false, Some err), db)
    | (None, db) =>
        match select_user username_ db with       (* QueryRowContext, Scan *)
        | (Row _, db) => ((false, None), db)
        | (ScanError err, db) => ((false, Some err), db)
        | (ErrNoRows, db) =>
            match GenerateFromPassword password DefaultCost with
            | (_, Some err) => ((false, Some err), db)
            | (hash, None) =>
                match driver db with              (* PrepareContext *)
                | (Some err, db) => ((false, Some err), db)
                | (None, db) =>
                    match insert_user username_ hash db with   (* ExecContext *)
                    | (Some err, db) => ((false, Some err), db)
                    | (None, db) => ((true, None), db)
                    end
                end
            end
        end
    end.

Definition AuthenticateUser (username_ password : string) (db : DB)
    : (option User * error) * DB :=
  let username_ := strings_TrimSpace username_ in
  let password := strings_TrimSpace password in
  if String.eqb username_ "" || String.eqb password "" then
    ((None, errors_New "missing credentials"), db)
  else
    match driver db with                          (* PrepareContext *)
    | (Some err, db) => ((None, Some err), db)
    | (None, db) =>
        match select_user username_ db with       (* QueryRowContext, Scan *)
        | (ErrNoRows, db) => ((None, errors_New "user not found"), db)
        | (ScanError err, db) => ((None, Some err), db)
        | (Row row, db) =>
            let u := {| User_ID := id row; User_Username := username row;
                        User_PasswordHash := password_hash row |} in
            match CompareHashAndPassword (User_PasswordHash u) password with
            | Some _ => ((None, errors_New "invalid password"), db)
            | None => ((Some u, None), db)
            end
        end
    end.

(** The loop [for rows.Next()] of [ListKeys]: each [Scan] is an exchange
    with the driver. *)
Fixpoint scan_keys (rows : list KeyRow) (out : list Key) (db : DB)
    : (list Key + string) * DB :=
  match rows with
  | [] => (inl out, db)
  | row :: rest =>
      match driver db with
      | (Some err, db) => (inr err, db)
      | (None, db) =>
          let createdAtRaw := key_created_at row in
          let key :=
            {| ID := key_id row; UserID := user_id row; Name := name row;
               AccessKey := access_key row; SecretKey := secret_key row;
               Proxy := proxy row;
               CreatedAt := (time_Parse "2006-01-02 15:04:05" createdAtRaw).1 |}
          in
          scan_keys rest (out ++ [key]) db
      end
  end.

Definition ListKeys (userID : Z) (db : DB) : (list Key * error) * DB :=
  match driver db with                            (* PrepareContext *)
  | (Some err, db) => (([], Some err), db)
  | (None, db) =>
      match driver db with                        (* QueryContext *)
      | (Some err, db) => (([], Some err), db)
      | (None, db) =>
          match scan_keys (select_keys userID db) [] db with
          | (inr err, db) => (([], Some err), db)
          | (inl out, db) =>
              match driver db with                (* rows.Err *)
              | (Some err, db) => (([], Some err), db)
              | (None, db) => ((out, None), db)
              end
          end
      end
  end.
End Store.

(** [time.Now().Format("2006-01-02 15:04")], the name given to a key
    that comes without one; [now] is the reading of the clock. *)
Definition default_name (now : CalendarTime) (name_ : string) : string :=
  if String.eqb (strings_TrimSpace name_) ""
  then Time_Format "2006-01-02 15:04" now
  else name_.

Definition CreateKey (now : CalendarTime) (userID : Z)
    (name_ accessKey secretKey proxy_ : string) (db : DB) : (Z * error) * DB :=
  if String.eqb (strings_TrimSpace accessKey) ""
     || String.eqb (strings_TrimSpace secretKey) ""
  then ((0, errors_New "missing key values"), db)
  else
    let name_ := default_name now name_ in
    match driver db with                          (* BeginTx *)
    | (Some err, db) => ((0, Some err), db)
    | (None, db) =>
        let rollback (after : DB) : DB :=
          with_faults (faults after) db in
        match driver db with                      (* tx.PrepareContext *)
        | (Some err, db1) => ((0, Some err), rollback db1)
        | (None, db1) =>
            match insert_key userID name_ accessKey secretKey proxy_ db1 with
            | (Some err, db2) => ((0, Some err), rollback db2)
            | (None, db2) =>
                match driver db2 with             (* last_insert_rowid, Scan *)
                | (Some err, db3) => ((0, Some err), rollback db3)
                | (None, db3) =>
                    let insertID := api_keys_seq db3 in
                    match driver db3 with         (* tx.Commit *)
                    | (Some err, db4) => ((0, Some err), rollback db4)
                    | (None, db4) => ((insertID, None), db4)
                    end
                end
            end
        end
    end.

Definition DeleteKey (userID keyID : Z) (db : DB) : error * DB :=
  if keyID =? 0 then (None, db)
  else
    match driver db with                          (* PrepareContext *)
    | (Some err, db) => (Some err, db)
    | (None, db) => delete_key keyID userID db    (* ExecContext *)
    end.

Definition UpdateKey (now : CalendarTime) (userID keyID : Z)
    (name_ accessKey secretKey proxy_ : string) (db : DB) : error * DB :=
  if keyID =? 0 then (errors_New "missing key id", db)
  else if String.eqb (strings_TrimSpace accessKey) ""
          || String.eqb (strings_TrimSpace secretKey) ""
  then (errors_New "missing key values", db)
  else
    let name_ := default_name now name_ in
    match driver db with                          (* PrepareContext *)
    | (Some err, db) => (Some err, db)
    | (None, db) =>                               (* ExecContext *)
        update_key name_ accessKey secretKey proxy_ keyID userID db
    end.

(** *** What the claims speak about *)

Definition usernames (db : DB) : list string := map username (users db).

Definition keys_of (userID : Z) (db : DB) : list KeyRow :=
  filter (fun row => user_id row = userID) (api_keys db).

(** The driver serves the next [n] exchanges. *)
Definition served (n : nat) (db : DB) : Prop :=
  Forall (fun answer : error => answer = None) (take n (faults db)).

End Store.

Module Session.
Import Go.

(** A [time.Time] used as an instant: nanoseconds on the clock that
    [time.Now] reads.  [Before] is strict. *)
Definition Time : Type := Z.
Definition Time_Add (t : Time) (d : Duration) : Time := t + d.
Definition Time_Before (t u : Time) : bool := t <? u.

Record Session : Type := mkSession {
  values : gmap string string;   (* field [m] *)
  lastAccess : Time
}.

Record Store : Type := mkStore {
  sessions : gmap string Session;   (* field [m]: the map owns its sessions *)
  ttl : Duration;
  cleanupInterval : Duration
}.

(** *** Methods of [*Session]; [now] is what [time.Now()] returns. *)

Definition touch (now : Time) (s : Session) : Session :=
  {| values := values s; lastAccess := now |}.

Definition GetString (now : Time) (key def : string) (s : Session)
    : string * Session :=
  let v := values s !! key in
  let s := touch now s in
  (match v with Some v => v | None => def end, s).

Definition SetString (now : Time) (key val : string) (s : Session) : Session :=
  {| values := <[key := val]> (values s); lastAccess := now |}.

Definition LastAccess (s : Session) : Time := lastAccess s.

(** *** Methods of [*Store] *)

Definition NewStore : Store :=
  {| sessions := ∅; ttl := 30 * Minute; cleanupInterval := 5 * Minute |}.

Definition GetOrCreate (now : Time) (id : string) (st : Store)
    : Session * Store :=
  match sessions st !! id with
  | Some s =>
      let s := touch now s in
      (s, {| sessions := <[id := s]> (sessions st);
             ttl := ttl st; cleanupInterval := cleanupInterval st |})
  | None =>
      let s := {| values := ∅; lastAccess := now |} in
      (s, {| sessions := <[id := s]> (sessions st);
             ttl := ttl st; cleanupInterval := cleanupInterval st |})
  end.

(** A handler working on the session it holds, seen from the store:
    the session registered under [id], if still there, changes. *)
Definition with_session (id : string) (f : Session -> Session) (st : Store)
    : Store :=
  {| sessions := alter f id (sessions st);
     ttl := ttl st; cleanupInterval := cleanupInterval st |}.

(** One sweep.  The [range] loop visits the entries of the map and
    deletes from that same map as it goes. *)
Definition cleanupExpired (now : Time) (st : Store) : Store :=
  let expiredBefore := Time_Add now (- ttl st) in
  {| sessions :=
       map_fold
         (fun id sess m =>
            if Time_Before (LastAccess sess) expiredBefore
            then delete id m
            else m)
         (sessions st) (sessions st);
     ttl := ttl st;
     cleanupInterval := cleanupInterval st |}.

(** The states a store goes through: created by [NewStore], then used
    by the request handlers and swept by the ticker. *)
Inductive reachable : Store -> Prop :=
| reach_NewStore : reachable NewStore
| reach_GetOrCreate now id st :
    reachable st -> reachable (GetOrCreate now id st).2
| reach_GetString now id key def st :
    reachable st ->
    reachable (with_session id (fun s => (GetString now key def s).2) st)
| reach_SetString now id key val st :
    reachable st -> reachable (with_session id (SetString now key val) st)
| reach_cleanupExpired now st :
    reachable st -> reachable (cleanupExpired now st).

End Session.

(** ** Concrete scenarios, used to run the definitions *)
Module Scenario.
Import Go Aws.
Import Store.

(** A world made of a clock and a count of the calls served so far. *)
Record world : Type := { clock : Z; calls_served : Z }.

Definition Sleep (d : Duration) (w : world) : world :=
  {| clock := clock w + Z.max 0 d; calls_served := calls_served w |}.

(** A call that is throttled twice and then goes through. *)
Definition flaky (w : world) : error * world :=
  (if calls_served w <? 2 then Some "Throttling" else None,
   {| clock := clock w; calls_served := calls_served w + 1 |}).

(** A call that is always refused. *)
Definition refused (w : world) : error * world :=
  (Some "AccessDenied", {| clock := clock w; calls_served := calls_served w + 1 |}).

Definition start : world := {| clock := 0; calls_served := 0 |}.

(** A session store with one visitor seen at minute 0 and another at
    minute 20 (times in nanoseconds). *)
Definition two_visitors : Session.Store :=
  (Session.GetOrCreate (20 * Minute) "bob"
     (Session.GetOrCreate 0 "alice" Session.NewStore).2).2.

(** A Service Quotas endpoint that refuses the On-Demand quota and
    answers for the Spot quota. *)
Definition spot_only : QuotasClient unit :=
  {| GetServiceQuota := fun input w =>
       if String.eqb (aws_ToString (QuotaCode input)) quotaCodeSpotStdVcpu
       then ((Some {| Quota :=
                        Some {| QuotaName :=
                                  Some "All Standard Spot Instance Requests";
                                Value := Some (float64_of_int 5) |} |},
              None), w)
       else ((None, Some "AccessDeniedException"), w) |}.

(** An endpoint that refuses every call. *)
Definition no_access : QuotasClient unit :=
  {| GetServiceQuota := fun _ w => ((None, Some "AccessDeniedException"), w) |}.

(** A Lightsail account with one instance, [web-1], holding the static
    address [sip-web-1].  The state of the service is the list of the
    static addresses still allocated. *)
Definition web1 : Instance.t :=
  {| Instance.Name := Some "web-1";
     Instance.State := Some {| InstanceState.Name := Some "running" |};
     Instance.PublicIpAddress := Some "203.0.113.7";
     Instance.Ipv6Addresses := ["2001:db8::7"];
     Instance.Location := Some {| AvailabilityZone := Some "us-east-1a" |};
     Instance.CreatedAt :=
       Some {| Year := 2024; Month := 3; Day := 9;
               Hour := 7; Minute_ := 5; Second_ := 0 |};
     Instance.BundleId := Some "nano_3_0" |}.

Definition sip_web1 : StaticIp.t :=
  {| StaticIp.Name := Some "sip-web-1";
     StaticIp.IpAddress := Some "198.51.100.4";
     StaticIp.AttachedTo := Some "web-1";
     StaticIp.IsAttached := Some true |}.

(** The static-address calls are throttled; everything else works. *)
Definition static_ips_down : LightsailAPI unit :=
  {| GetInstances := fun s => ((Some {| Instances := [web1] |}, None), s);
     GetStaticIps := fun s => ((None, Some "ThrottlingException"), s);
     GetStaticIp := fun _ s => ((None, Some "ThrottlingException"), s);
     DetachStaticIp := fun _ s => (Some "ThrottlingException", s);
     ReleaseStaticIp := fun _ s => (Some "ThrottlingException", s);
     DeleteInstance := fun _ s => (None, s) |}.

(** Listing the instances is refused. *)
Definition listing_refused : LightsailAPI unit :=
  {| GetInstances := fun s => ((None, Some "AccessDeniedException"), s);
     GetStaticIps := fun s => ((Some {| StaticIps := [sip_web1] |}, None), s);
     GetStaticIp := fun _ s => ((None, Some "NotFoundException"), s);
     DetachStaticIp := fun _ s => (None, s);
     ReleaseStaticIp := fun _ s => (None, s);
     DeleteInstance := fun _ s => (None, s) |}.

(** The address is listed as attached, but detaching it is refused. *)
Definition detach_refused : LightsailAPI unit :=
  {| GetInstances := fun s => ((Some {| Instances := [web1] |}, None), s);
     GetStaticIps := fun s => ((Some {| StaticIps := [sip_web1] |}, None), s);
     GetStaticIp :=
       fun _ s => ((Some {| StaticIp := Some sip_web1 |}, None), s);
     DetachStaticIp := fun _ s => (Some "OperationFailureException", s);
     ReleaseStaticIp := fun _ s => (None, s);
     DeleteInstance := fun _ s => (None, s) |}.

Definition dawn : World unit := {| now := 0; service := tt; issued := [] |}.

(** Stand-ins for [bcrypt] and [time.Parse] with the behaviour the store
    relies on: a hash that only its own password matches, a refusal of
    passwords above 72 bytes, and a reading of the timestamps SQLite
    writes (the zero time for anything else). *)
Definition toy_Generate (password : string) (cost : Z) : string * error :=
  if (72 <? String.length password)%nat
  then ("", Some "bcrypt: password length exceeds 72 bytes")
  else ("$2a$" +:+ FormatInt cost +:+ "$" +:+ password, None).

Definition toy_Compare (hash password : string) : error :=
  if String.eqb hash ("$2a$10$" +:+ password) then None
  else Some "crypto/bcrypt: hashedPassword is not the hash of the given password".

Definition zero_time : CalendarTime :=
  {| Year := 1; Month := 1; Day := 1; Hour := 0; Minute_ := 0; Second_ := 0 |}.

Definition toy_Parse (layout value : string) : CalendarTime * error :=
  if String.eqb value "2024-03-09 07:05:00"
  then ({| Year := 2024; Month := 3; Day := 9;
           Hour := 7; Minute_ := 5; Second_ := 0 |}, None)
  else (zero_time, Some ("parsing time " +:+ value)).

(** A database with the administrator and a second user, and a key for
    each of them. *)
Definition two_users : DB :=
  {| users :=
       [{| id := 1; username := "admin";
           password_hash := "$2a$10$admin123";
           created_at := "2024-03-09 07:05:00" |};
        {| id := 2; username := "ops";
           password_hash := "$2a$10$s3cret";
           created_at := "2024-03-09 07:05:00" |}];
     api_keys :=
       [{| key_id := 1; user_id := 1; name := "main";
           access_key := "AKIAADMIN"; secret_key := "admin-secret";
           proxy := ""; key_created_at := "2024-03-09 07:05:00" |};
        {| key_id := 2; user_id := 2; name := "ops";
           access_key := "AKIAOPS"; secret_key := "ops-secret";
           proxy := "socks5://127.0.0.1:1080";
           key_created_at := "2024-03-09 07:05:00" |}];
     users_seq := 2;
     api_keys_seq := 2;
     CURRENT_TIMESTAMP := "2024-03-10 12:00:00";
     faults := [] |}.

Definition noon : CalendarTime :=
  {| Year := 2024; Month := 3; Day := 10; Hour := 12; Minute_ := 0; Second_ := 0 |}.
End Scenario.

(* ===================================================================== *)
(** * Part II: the properties                                             *)
(* ===================================================================== *)

(** ** The Go library functions, on samples *)

Example range_runes_sample :
  Go.range_runes "héllo, 世界"
  = [104; 233; 108; 108; 111; 44; 32; 19990; 30028].
Proof. reflexivity. Qed.

Example EncodeRune_sample :
  Go.EncodeRune 19990 +:+ Go.EncodeRune 233 +:+ Go.EncodeRune 45 = "世é-".
Proof. reflexivity. Qed.

(** Every white-space rune is trimmed, from either end. *)
Example TrimSpace_white_space :
  forallb
    (fun r => String.eqb (Go.strings_TrimSpace (Go.EncodeRune r +:+ "a")) "a"
              && String.eqb (Go.strings_TrimSpace ("a" +:+ Go.EncodeRune r)) "a"
              && Go.IsSpace r)
    [0x09; 0x0A; 0x0B; 0x0C; 0x0D; 0x20; 0x85; 0xA0; 0x1680; 0x2000; 0x2001;
     0x2002; 0x2003; 0x2004; 0x2005; 0x2006; 0x2007; 0x2008; 0x2009; 0x200A;
     0x2028; 0x2029; 0x202F; 0x205F; 0x3000]
  = true.
Proof. vm_compute. reflexivity. Qed.

Example TrimSpace_sample :
  Go.strings_TrimSpace "  admin 1 " = "admin 1"
  /\ Go.strings_TrimSpace "   " = ""
  /\ Go.strings_TrimSpace "世界" = "世界".
Proof. repeat split. Qed.

Example FormatInt_sample :
  Go.FormatInt 0 = "0" /\ Go.FormatInt 1920 = "1920" /\ Go.FormatInt (-7) = "-7".
Proof. repeat split. Qed.

Example ToLower_sample :
  forall tbl, Go.strings_ToLower tbl "My-Instance" = "my-instance".
Proof. reflexivity. Qed.

Example FormatFloat_sample :
  Go.FormatFloat (Go.f64_const 125 100) = "1.25"
  /\ Go.FormatFloat (Go.f64_const 1 10) = "0.1"
  /\ Go.FormatFloat (Go.f64_const (-2675) 1000) = "-2.675"
  /\ Go.FormatFloat (Go.float64_of_int (2 ^ 63)) = "9223372036854776000"
  /\ Go.FormatFloat (Go.f64_add (Go.f64_const 1 10) (Go.f64_const 2 10))
     = "0.30000000000000004".
Proof. vm_compute. repeat split. Qed.

Example Time_Format_sample :
  let t := {| Go.Year := 2024; Go.Month := 3; Go.Day := 9;
              Go.Hour := 7; Go.Minute_ := 5; Go.Second_ := 0 |} in
  Go.Time_Format "2006-01-02 15:04:05" t = "2024-03-09 07:05:00"
  /\ Go.Time_Format "2006-01-02 15:04" t = "2024-03-09 07:05".
Proof. split; reflexivity. Qed.

(** ** [SafeRetry] *)

Section SafeRetryFacts.
Import Go Aws.
Context {W : Type}.
Variable Sleep : Duration -> W -> W.

Lemma last_error_cons e errs init :
  last_error (e :: errs) init = last_error errs (Some e).
Proof.
  unfold last_error. destruct errs as [|e' errs]; [reflexivity|].
  change (last (e :: e' :: errs)) with (last (e' :: errs)).
  destruct (last (e' :: errs)) eqn:E; [reflexivity|].
  apply last_None in E. discriminate.
Qed.

(** The loop produces some number of failed rounds, and then either a
    successful invocation or nothing at all. *)
Lemma SafeRetry_loop_shape fn baseSleep n :
  forall i last w,
  exists errs,
    match SafeRetry_loop Sleep fn baseSleep n i last w with
    | (ReturnedNil, _, tr) =>
        tr = failed_rounds baseSleep i errs ++ [Invoked None]
        /\ (length errs < n)%nat
    | (Exhausted l, _, tr) =>
        tr = failed_rounds baseSleep i errs
        /\ length errs = n /\ l = last_error errs last
    end.
Proof.
  induction n as [|k IH]; intros i last w; simpl.
  - exists []. repeat split.
  - destruct (fn w) as [[e|] w1].
    + specialize (IH (i + 1) (Some e) (Sleep (backoff baseSleep i) w1)).
      destruct IH as [errs IH].
      destruct (SafeRetry_loop _ _ _ _ _ _ _) as [[[|l] w2] tr];
        exists (e :: errs); simpl.
      * destruct IH as [-> Hlen]. split; [reflexivity | lia].
      * destruct IH as (-> & Hlen & ->).
        rewrite last_error_cons. repeat split. lia.
    + exists []. simpl. split; [reflexivity | lia].
Qed.

Lemma SafeRetry_run_shape actionName retries baseSleep fn w :
  exists errs,
    (length errs <= Z.to_nat (Z.max 1 retries))%nat /\
    match SafeRetry_run Sleep actionName retries baseSleep fn w with
    | (None, _, tr) =>
        tr = failed_rounds baseSleep 0 errs ++ [Invoked None]
        /\ (length errs < Z.to_nat (Z.max 1 retries))%nat
    | (Some msg, _, tr) =>
        tr = failed_rounds baseSleep 0 errs
        /\ length errs = Z.to_nat (Z.max 1 retries)
        /\ exists e, last errs = Some e
                     /\ msg = actionName +:+ " 失败：" +:+ e
    end.
Proof.
  unfold SafeRetry_run.
  assert (Hn : (if retries <? 1 then 1 else retries) = Z.max 1 retries).
  { destruct (Z.ltb_spec retries 1); lia. }
  rewrite Hn.
  destruct (SafeRetry_loop_shape fn baseSleep (Z.to_nat (Z.max 1 retries))
              0 None w) as [errs H].
  exists errs.
  destruct (SafeRetry_loop _ _ _ _ _ _ _) as [[[|l] w2] tr].
  - destruct H as [-> Hlen]. split; [lia|]. split; [reflexivity | exact Hlen].
  - destruct H as (-> & Hlen & ->). split; [lia|].
    repeat split; [exact Hlen|].
    unfold last_error. destruct (last errs) as [e|] eqn:E.
    + exists e. split; reflexivity.
    + apply last_None in E. subst errs. simpl in Hlen. lia.
Qed.

(** Projections of the canonical traces. *)
Lemma invocations_failed_rounds baseSleep errs : forall i,
  invocations (failed_rounds baseSleep i errs) = Some <$> errs.
Proof. induction errs as [|e es IH]; intros i; simpl; [|rewrite IH]; reflexivity. Qed.

Lemma failures_failed_rounds baseSleep errs : forall i,
  failures (failed_rounds baseSleep i errs) = errs.
Proof. induction errs as [|e es IH]; intros i; simpl; [|rewrite IH]; reflexivity. Qed.

Lemma sleeps_failed_rounds baseSleep errs : forall i k e,
  errs !! k = Some e ->
  sleeps (failed_rounds baseSleep i errs) !! k
  = Some (backoff baseSleep (i + Z.of_nat k)).
Proof.
  induction errs as [|e' es IH]; intros i k e Hk; [discriminate|].
  destruct k as [|k]; simpl.
  - f_equal. f_equal. lia.
  - simpl in Hk. rewrite (IH (i + 1) k e Hk). f_equal. f_equal. lia.
Qed.

Lemma length_sleeps_failed_rounds baseSleep errs : forall i,
  length (sleeps (failed_rounds baseSleep i errs)) = length errs.
Proof. induction errs as [|e es IH]; intros i; simpl; [|rewrite IH]; reflexivity. Qed.

End SafeRetryFacts.

Section SafeRetryClaims.
Import Go Aws.
Context {W : Type}.
Variable Sleep : Duration -> W -> W.

Lemma failures_app tr1 tr2 : failures (tr1 ++ tr2) = failures tr1 ++ failures tr2.
Proof. apply omap_app. Qed.

Lemma invocations_app tr1 tr2 :
  invocations (tr1 ++ tr2) = invocations tr1 ++ invocations tr2.
Proof. apply omap_app. Qed.

Lemma sleeps_app tr1 tr2 : sleeps (tr1 ++ tr2) = sleeps tr1 ++ sleeps tr2.
Proof. apply omap_app. Qed.

(** C1. With [retries = n >= 1] the closure is invoked at most [n] times,
    a nil result is always the last invocation (the loop stops there),
    and the trace is a run of failed rounds in which the [i]-th failed
    invocation (from 0) is followed by a sleep of [backoff baseSleep i],
    the value of [baseSleep * (1 + i*0.35)] as the code computes it. *)
Theorem SafeRetry_at_most_n_invocations
    (actionName : string) (n : Z) (baseSleep : Duration)
    (fn : W -> error * W) (w : W) :
  1 <= n ->
  let '(r, _, tr) := SafeRetry_run Sleep actionName n baseSleep fn w in
  Z.of_nat (length (invocations tr)) <= n
  /\ (forall k, invocations tr !! k = Some None ->
                length (invocations tr) = S k)
  /\ tr = failed_rounds baseSleep 0 (failures tr)
            ++ match r with None => [Invoked None] | Some _ => [] end
  /\ (forall i e, failures tr !! i = Some e ->
                  sleeps tr !! i = Some (backoff baseSleep (Z.of_nat i))).
Proof.
  intros Hn.
  destruct (SafeRetry_run_shape Sleep actionName n baseSleep fn w)
    as (errs & Hle & H).
  replace (Z.max 1 n) with n in * by lia.
  destruct (SafeRetry_run _ _ _ _ _ _) as [[[msg|] w'] tr].
  - destruct H as (-> & Hlen & _).
    rewrite invocations_failed_rounds, failures_failed_rounds, length_fmap.
    rewrite app_nil_r.
    split; [lia|]. split.
    + intros k Hk. apply list_lookup_fmap_Some in Hk.
      destruct Hk as (? & ? & ?). discriminate.
    + split; [reflexivity|]. intros i e Hi.
      rewrite (sleeps_failed_rounds baseSleep errs 0 i e Hi). reflexivity.
  - destruct H as [-> Hlen].
    rewrite invocations_app, failures_app, sleeps_app.
    rewrite invocations_failed_rounds, failures_failed_rounds. simpl.
    rewrite app_nil_r, length_app, length_fmap. simpl.
    split; [lia|]. split.
    + intros k Hk. destruct (decide (k < length errs)%nat) as [Hlt|Hge].
      * rewrite lookup_app_l in Hk by (rewrite length_fmap; exact Hlt).
        apply list_lookup_fmap_Some in Hk.
        destruct Hk as (? & ? & ?). discriminate.
      * rewrite lookup_app_r in Hk by (rewrite length_fmap; lia).
        rewrite length_fmap in Hk.
        destruct (k - length errs)%nat as [|j] eqn:E; [lia | discriminate].
    + split; [reflexivity|]. intros i e Hi.
      rewrite lookup_app_l
        by (rewrite length_sleeps_failed_rounds; eapply lookup_lt_Some; eauto).
      rewrite (sleeps_failed_rounds baseSleep errs 0 i e Hi). reflexivity.
Qed.
End SafeRetryClaims.

(** C1 on a call that is throttled twice and then succeeds: three
    invocations out of the five allowed. *)
Lemma SafeRetry_at_most_n_invocations_witness :
  1 <= 5 /\
  let '(r, _, tr) :=
    Aws.SafeRetry_run Scenario.Sleep "重启实例" 5 (1200 * Go.Millisecond)
                      Scenario.flaky Scenario.start in
  Z.of_nat (length (Aws.invocations tr)) <= 5
  /\ (forall k, Aws.invocations tr !! k = Some None ->
                length (Aws.invocations tr) = S k)
  /\ tr = Aws.failed_rounds (1200 * Go.Millisecond) 0 (Aws.failures tr)
            ++ match r with None => [Aws.Invoked None] | Some _ => [] end
  /\ (forall i e, Aws.failures tr !! i = Some e ->
                  Aws.sleeps tr !! i
                  = Some (Aws.backoff (1200 * Go.Millisecond) (Z.of_nat i))).
Proof.
  split; [lia|].
  apply (SafeRetry_at_most_n_invocations Scenario.Sleep "重启实例" 5
           (1200 * Go.Millisecond) Scenario.flaky Scenario.start).
  lia.
Defined.

(** The run of the scenario above, event by event. *)
Example SafeRetry_flaky_run :
  Aws.SafeRetry_run Scenario.Sleep "重启实例" 5 (1200 * Go.Millisecond)
                    Scenario.flaky Scenario.start
  = (None,
     {| Scenario.clock := 2820000000; Scenario.calls_served := 3 |},
     [Aws.Invoked (Some "Throttling"); Aws.Slept 1200000000;
      Aws.Invoked (Some "Throttling"); Aws.Slept 1620000000;
      Aws.Invoked None]).
Proof. vm_compute. reflexivity. Qed.

(** The eight sleeps of a deletion that is refused every time.  The
    products are formed in binary floating point and then truncated, so
    the seventh and eighth fall one nanosecond short of 3.72 s and
    4.14 s. *)
Example SafeRetry_refused_sleeps :
  let '(r, _, tr) :=
    Aws.SafeRetry_run Scenario.Sleep "删除实例" 8 (1200 * Go.Millisecond)
                      Scenario.refused Scenario.start in
  r = Some "删除实例 失败：AccessDenied"
  /\ Aws.sleeps tr
     = [1200000000; 1620000000; 2040000000; 2460000000;
        2880000000; 3300000000; 3719999999; 4139999999].
Proof. vm_compute. split; reflexivity. Qed.

Section SafeRetryBlind.
Import Go Aws.
Context {W : Type}.
Variable Sleep : Duration -> W -> W.

Lemma erase_failed_rounds baseSleep errs errs' : forall i,
  length errs = length errs' ->
  erase <$> failed_rounds baseSleep i errs
  = erase <$> failed_rounds baseSleep i errs'.
Proof.
  revert errs'. induction errs as [|e es IH]; intros [|e' es'] i Hlen;
    try discriminate; [reflexivity|].
  simpl. f_equal. f_equal. apply IH. simpl in Hlen. lia.
Qed.

(** Relabelling the errors of [fn] changes neither the way the loop is
    left, nor the world, nor the shape of the trace. *)
Lemma SafeRetry_loop_relabel (g : string -> string) fn baseSleep n :
  forall i last w,
    match SafeRetry_loop Sleep fn baseSleep n i last w,
          SafeRetry_loop Sleep (relabel g fn) baseSleep n i (g <$> last) w
    with
    | (x, w1, tr1), (x', w2, tr2) =>
        w2 = w1 /\ erase <$> tr2 = erase <$> tr1
        /\ match x with
           | ReturnedNil => x' = ReturnedNil
           | Exhausted l => x' = Exhausted (g <$> l)
           end
    end.
Proof.
  induction n as [|k IH]; intros i last w; simpl.
  - repeat split.
  - unfold relabel at 1. destruct (fn w) as [[e|] w1]; simpl.
    + specialize (IH (i + 1) (Some e) (Sleep (backoff baseSleep i) w1)).
      simpl in IH.
      destruct (SafeRetry_loop Sleep fn _ _ _ _ _) as [[x w2] tr].
      destruct (SafeRetry_loop Sleep (relabel g fn) _ _ _ _ _)
        as [[x' w2'] tr'].
      destruct IH as (-> & Htr & Hx).
      split; [reflexivity|]. split; [|exact Hx].
      rewrite !fmap_cons, Htr. reflexivity.
    + repeat split.
Qed.

(** C2. [SafeRetry] returns nil exactly when some invocation of [fn]
    returned nil; otherwise its error is the action name, the localized
    text and the message of the last failed invocation.  The decision to
    go on never looks at the error: a closure reporting other non-nil
    errors at the same places drives the loop through the same
    invocations and sleeps, into the same world. *)
Theorem SafeRetry_blind_to_error_value
    (actionName : string) (retries : Z) (baseSleep : Duration)
    (fn : W -> error * W) (w : W) :
  let '(r, w', tr) := SafeRetry_run Sleep actionName retries baseSleep fn w in
  (r = None <-> None ∈ invocations tr)
  /\ (r <> None ->
      exists e, last (invocations tr) = Some (Some e)
                /\ r = Some (actionName +:+ " 失败：" +:+ e))
  /\ (length (invocations tr) <= Z.to_nat (Z.max 1 retries))%nat
  /\ forall g : string -> string,
       let '(r2, w2, tr2) :=
         SafeRetry_run Sleep actionName retries baseSleep (relabel g fn) w in
       w2 = w' /\ erase <$> tr2 = erase <$> tr /\ (r2 = None <-> r = None).
Proof.
  pose proof (SafeRetry_run_shape Sleep actionName retries baseSleep fn w)
    as (errs & Hle & H).
  assert (Hblind : forall g : string -> string,
    match SafeRetry_run Sleep actionName retries baseSleep fn w,
          SafeRetry_run Sleep actionName retries baseSleep (relabel g fn) w
    with
    | (r, w', tr), (r2, w2, tr2) =>
        w2 = w' /\ erase <$> tr2 = erase <$> tr /\ (r2 = None <-> r = None)
    end).
  { intros g. unfold SafeRetry_run.
    pose proof (SafeRetry_loop_relabel g fn baseSleep
      (Z.to_nat (if retries <? 1 then 1 else retries)) 0 None w) as Hl.
    simpl in Hl.
    destruct (SafeRetry_loop Sleep fn _ _ _ _ _) as [[x w1] tr1].
    destruct (SafeRetry_loop Sleep (relabel g fn) _ _ _ _ _)
      as [[x' w2] tr2].
    destruct Hl as (-> & Htr & Hx).
    destruct x as [|l]; subst x'; repeat split; try assumption;
      discriminate. }
  destruct (SafeRetry_run Sleep actionName retries baseSleep fn w)
    as [[[msg|] w'] tr].
  - destruct H as (-> & Hlen & e & Hlast & ->).
    rewrite invocations_failed_rounds.
    split; [|split; [|split]].
    + split; [discriminate|]. intros Hin.
      apply list_elem_of_fmap in Hin. destruct Hin as (? & ? & ?).
      discriminate.
    + intros _. exists e. split; [|reflexivity].
      rewrite fmap_last, Hlast. reflexivity.
    + rewrite length_fmap. lia.
    + intros g. specialize (Hblind g).
      destruct (SafeRetry_run Sleep actionName retries baseSleep
                  (relabel g fn) w) as [[r2 w2] tr2].
      exact Hblind.
  - destruct H as (-> & Hlen).
    rewrite invocations_app, invocations_failed_rounds. simpl.
    split; [|split; [|split]].
    + split; [|reflexivity]. intros _.
      apply elem_of_app. right. apply list_elem_of_singleton. reflexivity.
    + intros Hne. contradiction Hne. reflexivity.
    + rewrite length_app, length_fmap. simpl. lia.
    + intros g. specialize (Hblind g).
      destruct (SafeRetry_run Sleep actionName retries baseSleep
                  (relabel g fn) w) as [[r2 w2] tr2].
      exact Hblind.
Qed.

Lemma failed_rounds_sleep_follows baseSleep errs (tl : list event) :
  (tl = [] \/ tl = [Invoked None]) ->
  forall i pre e post,
    failed_rounds baseSleep i errs ++ tl = pre ++ Invoked (Some e) :: post ->
    exists d post', post = Slept d :: post'.
Proof.
  intros Htl. induction errs as [|e0 es IH]; intros i pre e post H; simpl in H.
  - destruct Htl as [-> | ->].
    + destruct pre; discriminate.
    + destruct pre as [|x [|y pre]]; discriminate.
  - destruct pre as [|x pre]; simpl in H.
    + injection H as _ <-. eauto.
    + destruct pre as [|y pre]; simpl in H; [discriminate|].
      injection H as _ _ H. eapply IH. exact H.
Qed.

Lemma last_failed_rounds baseSleep errs : forall i,
  errs <> [] ->
  last (failed_rounds baseSleep i errs)
  = Some (Slept (backoff baseSleep (i + Z.of_nat (length errs) - 1))).
Proof.
  induction errs as [|e es IH]; intros i Hne; [congruence|].
  destruct es as [|e' es].
  - simpl. do 3 f_equal. lia.
  - change (failed_rounds baseSleep i (e :: e' :: es))
      with (Invoked (Some e) :: Slept (backoff baseSleep i)
              :: failed_rounds baseSleep (i + 1) (e' :: es)).
    assert (Hcons : forall (x y : event) l, l <> [] ->
                      last (x :: y :: l) = last l).
    { intros x y [|z l] Hl; [congruence | reflexivity]. }
    rewrite Hcons by (simpl; discriminate).
    rewrite IH by discriminate. do 3 f_equal.
    change (length (e :: e' :: es)) with (S (length (e' :: es))). lia.
Qed.

(** C9. Whatever [retries] is, the closure is invoked at least once; a
    value below 1 behaves as 1; every failed invocation is directly
    followed by a sleep, so that there are as many sleeps as failures
    and a call that gives up ends on a sleep. *)
Theorem SafeRetry_invokes_at_least_once
    (actionName : string) (retries : Z) (baseSleep : Duration)
    (fn : W -> error * W) (w : W) :
  SafeRetry_run Sleep actionName retries baseSleep fn w
  = SafeRetry_run Sleep actionName (Z.max 1 retries) baseSleep fn w
  /\ let '(r, _, tr) :=
       SafeRetry_run Sleep actionName retries baseSleep fn w in
     (1 <= length (invocations tr))%nat
     /\ (forall pre e post,
           tr = pre ++ Invoked (Some e) :: post ->
           exists d post', post = Slept d :: post')
     /\ length (sleeps tr) = length (failures tr)
     /\ (r <> None ->
         last tr
         = Some (Slept (backoff baseSleep (Z.max 1 retries - 1)))).
Proof.
  split.
  { unfold SafeRetry_run.
    replace (if Z.max 1 retries <? 1 then 1 else Z.max 1 retries)
      with (if retries <? 1 then 1 else retries); [reflexivity|].
    destruct (Z.ltb_spec retries 1), (Z.ltb_spec (Z.max 1 retries) 1); lia. }
  pose proof (SafeRetry_run_shape Sleep actionName retries baseSleep fn w)
    as (errs & Hle & H).
  destruct (SafeRetry_run Sleep actionName retries baseSleep fn w)
    as [[[msg|] w'] tr].
  - destruct H as (-> & Hlen & e & Hlast & ->).
    rewrite invocations_failed_rounds, failures_failed_rounds,
      length_sleeps_failed_rounds, length_fmap.
    split; [lia|]. split; [|split; [reflexivity|]].
    + intros pre e0 post Htr.
      apply (failed_rounds_sleep_follows baseSleep errs [] (or_introl eq_refl)
               0 pre e0 post).
      rewrite app_nil_r. exact Htr.
    + intros _. rewrite last_failed_rounds.
      * do 3 f_equal. lia.
      * intros ->. discriminate.
  - destruct H as (-> & Hlen).
    rewrite invocations_app, sleeps_app, failures_app,
      invocations_failed_rounds, failures_failed_rounds,
      length_app, length_app, length_app, length_sleeps_failed_rounds.
    simpl. split; [lia|]. split; [|split; [reflexivity|]].
    + intros pre e0 post Htr.
      exact (failed_rounds_sleep_follows baseSleep errs [Invoked None]
               (or_intror eq_refl) 0 pre e0 post Htr).
    + intros Hne. contradiction Hne. reflexivity.
Qed.
End SafeRetryBlind.
(** ** [sanitize] *)

Section SanitizeFacts.
Import Go Aws.

Lemma append_nil_r (s : string) : s +:+ "" = s.
Proof.
  induction s as [|c s IH]; [reflexivity|].
  change (String c (s +:+ "") = String c s). rewrite IH. reflexivity.
Qed.

Lemma append_assoc (s1 s2 s3 : string) :
  (s1 +:+ s2) +:+ s3 = s1 +:+ (s2 +:+ s3).
Proof.
  induction s1 as [|c s1 IH]; [reflexivity|].
  change (String c ((s1 +:+ s2) +:+ s3) = String c (s1 +:+ (s2 +:+ s3))).
  rewrite IH. reflexivity.
Qed.

Lemma byte_val_range (c : ascii) : 0 <= byte_val c < 256.
Proof.
  unfold byte_val. pose proof (N_ascii_bounded c) as H. lia.
Qed.

Lemma byte_of_val (c : ascii) : byte_of (byte_val c) = c.
Proof.
  unfold byte_of, byte_val. rewrite N2Z.id. apply ascii_N_embedding.
Qed.

Lemma lor_ge_l (a b : Z) : 0 <= b -> a <= Z.lor a b.
Proof.
  intros Hb. pose proof (Z.sub_lor_l_same_l b a) as H.
  assert (0 <= Z.land b (Z.lnot a)) by (apply Z.land_nonneg; left; exact Hb).
  lia.
Qed.

Lemma lor_ge_r (a b : Z) : 0 <= a -> b <= Z.lor a b.
Proof. intros Ha. rewrite Z.lor_comm. apply lor_ge_l. exact Ha. Qed.

Lemma land_mask_nonneg (x m : Z) : 0 <= m -> 0 <= Z.land x m.
Proof. intros Hm. apply Z.land_nonneg. right. exact Hm. Qed.

Lemma shiftl_mask_nonneg (x m k : Z) :
  0 <= m -> 0 <= k -> 0 <= Z.shiftl (Z.land x m) k.
Proof.
  intros Hm Hk. apply Z.shiftl_nonneg. apply land_mask_nonneg. exact Hm.
Qed.

(** The three lower bounds that make every multi-byte rune non-ASCII. *)
Lemma lead2_high (s0 : Z) :
  0xC2 <= s0 < 0xE0 -> 128 <= Z.shiftl (Z.land s0 0x1F) 6.
Proof.
  intros H. rewrite Z.shiftl_mul_pow2 by lia.
  change 0x1F with (Z.ones 5). rewrite Z.land_ones by lia.
  change (2 ^ 5) with 32. change (2 ^ 6) with 64.
  Z.div_mod_to_equations. lia.
Qed.

Lemma cont_high (s1 lo k : Z) :
  0x80 <= lo -> lo <= s1 <= 0xBF -> 0 <= k ->
  (lo - 128) * 2 ^ k <= Z.shiftl (Z.land s1 0x3F) k.
Proof.
  intros Hlo H Hk. rewrite Z.shiftl_mul_pow2 by lia.
  change 0x3F with (Z.ones 6). rewrite Z.land_ones by lia.
  change (2 ^ 6) with 64.
  apply Z.mul_le_mono_nonneg_r; [apply Z.pow_nonneg; lia|].
  Z.div_mod_to_equations. lia.
Qed.

Lemma lead_high (s0 mask k : Z) (lo : Z) :
  lo <= Z.land s0 mask -> 0 <= k -> lo * 2 ^ k <= Z.shiftl (Z.land s0 mask) k.
Proof.
  intros H Hk. rewrite Z.shiftl_mul_pow2 by lia.
  apply Z.mul_le_mono_nonneg_r; [apply Z.pow_nonneg; lia | exact H].
Qed.

Lemma rune2_high (s0 s1 : Z) :
  0xC2 <= s0 < 0xE0 ->
  128 <= Z.lor (Z.shiftl (Z.land s0 0x1F) 6) (Z.land s1 0x3F).
Proof.
  intros H0. etrans; [apply lead2_high; exact H0|].
  apply lor_ge_l, land_mask_nonneg. lia.
Qed.

Lemma rune3_high (s0 s1 s2 lo : Z) :
  0xE0 <= s0 < 0xF0 -> (s0 = 0xE0 -> 0xA0 <= lo) -> 0x80 <= lo ->
  lo <= s1 <= 0xBF ->
  128 <= Z.lor (Z.shiftl (Z.land s0 0x0F) 12)
               (Z.lor (Z.shiftl (Z.land s1 0x3F) 6) (Z.land s2 0x3F)).
Proof.
  intros H0 HE0 Hlo H1. destruct (decide (s0 = 0xE0)) as [E|NE].
  - etrans; [|apply lor_ge_r, shiftl_mask_nonneg; lia].
    etrans; [|apply lor_ge_l, land_mask_nonneg; lia].
    etrans; [|apply (cont_high s1 lo 6); lia].
    specialize (HE0 E). change (2 ^ 6) with 64. lia.
  - etrans; [|apply lor_ge_l, Z.lor_nonneg; split;
               [apply shiftl_mask_nonneg | apply land_mask_nonneg]; lia].
    etrans; [|apply (lead_high s0 0x0F 12 1); [|lia]].
    + change (2 ^ 12) with 4096. lia.
    + change 0x0F with (Z.ones 4). rewrite Z.land_ones by lia.
      change (2 ^ 4) with 16. Z.div_mod_to_equations. lia.
Qed.

Lemma rune4_high (s0 s1 s2 s3 lo : Z) :
  0xF0 <= s0 <= 0xF4 -> (s0 = 0xF0 -> 0x90 <= lo) -> 0x80 <= lo ->
  lo <= s1 <= 0xBF ->
  128 <= Z.lor (Z.shiftl (Z.land s0 0x07) 18)
               (Z.lor (Z.shiftl (Z.land s1 0x3F) 12)
                      (Z.lor (Z.shiftl (Z.land s2 0x3F) 6) (Z.land s3 0x3F))).
Proof.
  intros H0 HF0 Hlo H1. destruct (decide (s0 = 0xF0)) as [E|NE].
  - etrans; [|apply lor_ge_r, shiftl_mask_nonneg; lia].
    etrans; [|apply lor_ge_l, Z.lor_nonneg; split;
               [apply shiftl_mask_nonneg | apply land_mask_nonneg]; lia].
    etrans; [|apply (cont_high s1 lo 12); lia].
    specialize (HF0 E). change (2 ^ 12) with 4096. lia.
  - etrans; [|apply lor_ge_l, Z.lor_nonneg; split;
               [apply shiftl_mask_nonneg; lia|]].
    + etrans; [|apply (lead_high s0 0x07 18 1); [|lia]].
      * change (2 ^ 18) with 262144. lia.
      * change 0x07 with (Z.ones 3). rewrite Z.land_ones by lia.
        change (2 ^ 3) with 8. Z.div_mod_to_equations. lia.
    + apply Z.lor_nonneg; split;
        [apply shiftl_mask_nonneg | apply land_mask_nonneg]; lia.
Qed.

Lemma Decode_ascii (c : ascii) (rest : string) :
  byte_val c < 0x80 ->
  DecodeRuneInString (String c rest) = (byte_val c, 1%nat).
Proof.
  intros H. unfold DecodeRuneInString, first.
  destruct (Z.ltb_spec (byte_val c) 0x80); [reflexivity | lia].
Qed.

(** A byte outside ASCII starts a rune outside ASCII, and the bytes that
    rune takes with it are outside ASCII as well: a filter that rejects
    such bytes does not see them. *)
Lemma Decode_non_ascii (p : ascii -> bool) (c : ascii) (rest : string) :
  (forall a, 0x80 <= byte_val a -> p a = false) ->
  0x80 <= byte_val c ->
  128 <= (DecodeRuneInString (String c rest)).1
  /\ string_filter p
       (string_drop (Nat.pred (DecodeRuneInString (String c rest)).2) rest)
     = string_filter p rest.
Proof.
  intros Hp Hc. pose proof (byte_val_range c) as Hr.
  unfold DecodeRuneInString, first.
  repeat first
    [ progress cbn [orb fst snd Nat.leb]
    | match goal with
      | |- context [Z.eqb ?a ?b] => destruct (Z.eqb_spec a b)
      | |- context [Nat.ltb ?a ?b] => destruct (Nat.ltb a b)
      | |- context [Z.ltb ?a ?b] => destruct (Z.ltb_spec a b)
      | |- context [match ?r with EmptyString => _ | String _ _ => _ end] =>
          is_var r; destruct r
      end ]; try lia.
  all: split;
    [ first [ unfold RuneError; lia
            | apply rune2_high; lia
            | apply (rune3_high _ _ _ 160); lia
            | apply (rune3_high _ _ _ 128); lia
            | apply (rune4_high _ _ _ _ 144); lia
            | apply (rune4_high _ _ _ _ 128); lia ]
    | cbn [Nat.pred string_drop string_filter];
      rewrite ?Hp by lia; reflexivity ].
Qed.

(** The loop of [sanitize] keeps exactly the bytes [allowed_char]
    accepts. *)
Lemma sanitize_loop_filter (s : string) : forall acc : Builder,
  fold_left
    (fun b r =>
       if ((97 <=? r) && (r <=? 122)) || ((48 <=? r) && (r <=? 57))
          || (r =? 45)
       then WriteRune b r
       else b)
    (range_runes s) acc
  = acc +:+ string_filter allowed_char s.
Proof.
  funelim (range_runes s); intros acc.
  - simp range_runes. simpl. rewrite append_nil_r. reflexivity.
  - simp range_runes. cbn [fold_left].
    destruct (Z.lt_ge_cases (byte_val c) 0x80) as [Hlo|Hhi].
    + rewrite Decode_ascii in * by exact Hlo. cbn [fst snd Nat.pred string_drop] in *.
      rewrite H. cbn [string_filter]. unfold allowed_char at 2.
      destruct (_ || _).
      * unfold WriteRune, EncodeRune.
        pose proof (byte_val_range c) as Hr.
        destruct (Z.leb_spec 0 (byte_val c)); [|lia].
        destruct (Z.leb_spec (byte_val c) 0x7F); [|lia].
        cbn [andb string_of_bytes fold_right]. rewrite byte_of_val.
        rewrite append_assoc. reflexivity.
      * reflexivity.
    + destruct (Decode_non_ascii allowed_char c rest) as [Hr Hf];
        [|exact Hhi|].
      { intros a Ha. unfold allowed_char.
        repeat match goal with
        | |- context [Z.leb ?a ?b] => destruct (Z.leb_spec a b)
        | |- context [Z.eqb ?a ?b] => destruct (Z.eqb_spec a b)
        end; try lia; reflexivity. }
      rewrite H, Hf. cbn [string_filter].
      assert (Ha : allowed_char c = false).
      { unfold allowed_char.
        repeat match goal with
        | |- context [Z.leb ?a ?b] => destruct (Z.leb_spec a b)
        | |- context [Z.eqb ?a ?b] => destruct (Z.eqb_spec a b)
        end; try lia; reflexivity. }
      rewrite Ha.
      set (r := (DecodeRuneInString (String c rest)).1) in *.
      repeat match goal with
      | |- context [Z.leb ?a ?b] => destruct (Z.leb_spec a b)
      | |- context [Z.eqb ?a ?b] => destruct (Z.eqb_spec a b)
      end; try lia; reflexivity.
Qed.

(** C8. [sanitize] is the lower-case form of its argument without the
    characters other than [a-z], [0-9] and [-], and ["x"] when nothing
    is left; in particular it passes the three cases of the table test. *)
Theorem sanitize_matches_table_tests (To_LowerCase : rune -> rune) :
  (forall s : string,
      sanitize To_LowerCase s
      = sanitize_spec (strings_ToLower To_LowerCase) s)
  /\ sanitize To_LowerCase "My-Instance" = "my-instance"
  /\ sanitize To_LowerCase "Name@123" = "name123"
  /\ sanitize To_LowerCase "!!!" = "x".
Proof.
  split; [|repeat split].
  intros s. unfold sanitize, sanitize_spec. cbn zeta.
  rewrite sanitize_loop_filter. reflexivity.
Qed.
End SanitizeFacts.
(** ** The vCPU quota lookup *)

Example floatPtrToString_table :
  Aws.floatPtrToString None = ""
  /\ Aws.floatPtrToString (Some (Go.float64_of_int 1)) = "1"
  /\ Aws.floatPtrToString (Some (Go.f64_const 125 100)) = "1.25".
Proof. vm_compute. repeat split. Qed.

Section QuotaFacts.
Import Go Aws.
Context {S : Type}.

Lemma quota_fields_error out e : e <> None -> quota_fields out e = ("", "").
Proof. destruct e; [reflexivity | congruence]. Qed.

(** The error is nil exactly when one of the two answers carries a
    value. *)
Lemma TestVCPUQuotas_nil_iff_value (cli : QuotasClient S) (w : S)
    out1 e1 w1 out2 e2 w2 :
  GetServiceQuota cli onDemandInput w = ((out1, e1), w1) ->
  GetServiceQuota cli spotInput w1 = ((out2, e2), w2) ->
  (quota_err (TestVCPUQuotas (Some cli) w).1 = None
   <-> (quota_fields out1 e1).1 <> "" \/ (quota_fields out2 e2).1 <> "").
Proof.
  intros H1 H2. unfold TestVCPUQuotas.
  rewrite H1.
  destruct (quota_fields out1 e1) as [onVal onName].
  rewrite H2.
  destruct (quota_fields out2 e2) as [spotVal spotName]. cbn [fst].
  destruct (String.eqb_spec onVal ""), (String.eqb_spec spotVal "");
    cbn [andb quota_err fst snd]; split; intros H;
    try discriminate; try reflexivity; try tauto.
Qed.

(** C3, amended.  When both [GetServiceQuota] calls return an error,
    [TestVCPUQuotas] returns no value and a non-nil error whose text names
    the two errors. *)
Theorem TestVCPUQuotas_error_when_both_calls_fail
    (cli : QuotasClient S) (w : S) out1 e1 w1 out2 e2 w2 :
  GetServiceQuota cli onDemandInput w = ((out1, e1), w1) ->
  GetServiceQuota cli spotInput w1 = ((out2, e2), w2) ->
  e1 <> None -> e2 <> None ->
  TestVCPUQuotas (Some cli) w
  = (("", "", "", "", Some (quota_error_text e1 e2)), w2).
Proof.
  intros H1 H2 He1 He2. unfold TestVCPUQuotas.
  rewrite H1, (quota_fields_error out1 e1 He1).
  rewrite H2, (quota_fields_error out2 e2 He2).
  reflexivity.
Qed.
End QuotaFacts.

(** C3 as stated fails: the On-Demand call is refused, the Spot call
    answers 5, and [TestVCPUQuotas] returns the Spot value with a nil
    error. *)
Lemma TestVCPUQuotas_single_failure_not_surfaced :
  (Aws.GetServiceQuota Scenario.spot_only Aws.onDemandInput tt).1.2
  = Some "AccessDeniedException"
  /\ Aws.TestVCPUQuotas (Some Scenario.spot_only) tt
     = (("", "5", "", "All Standard Spot Instance Requests", None), tt).
Proof. vm_compute. split; reflexivity. Qed.

(** The amended C3 on an endpoint that refuses both calls. *)
Lemma TestVCPUQuotas_error_when_both_calls_fail_witness :
  Aws.TestVCPUQuotas (Some Scenario.no_access) tt
  = (("", "", "", "",
      Some (Aws.quota_error_text (Some "AccessDeniedException")
                             (Some "AccessDeniedException"))), tt).
Proof.
  apply (TestVCPUQuotas_error_when_both_calls_fail Scenario.no_access tt
           None (Some "AccessDeniedException") tt
           None (Some "AccessDeniedException") tt).
  - reflexivity.
  - reflexivity.
  - discriminate.
  - discriminate.
Defined.
(** ** Lightsail *)

Example ListInstances_static_ips_down :
  Aws.ListInstances Scenario.static_ips_down Scenario.dawn
  = (Go.Returned
       ([{| Aws.InstanceView.Name := "web-1";
            Aws.InstanceView.State := "running";
            Aws.InstanceView.PublicIPv4 := "203.0.113.7";
            Aws.InstanceView.PublicIPv6 := "2001:db8::7";
            Aws.InstanceView.StaticIPv4 := "";
            Aws.InstanceView.Zone := "us-east-1a";
            Aws.InstanceView.BundleID := "nano_3_0";
            Aws.InstanceView.Created := "2024-03-09 07:05:00" |}], None),
     {| Aws.now := 0; Aws.service := tt;
        Aws.issued := [Aws.GetInstancesCall; Aws.GetStaticIpsCall] |}).
Proof. vm_compute. reflexivity. Qed.

(** Detaching is refused eight times; the deletion goes ahead. *)
Example DeleteInstance_detach_refused :
  let '(err, w) :=
    Aws.DeleteInstanceWithStaticIPCleanup Scenario.detach_refused "web-1"
      Scenario.dawn in
  err = None
  /\ Aws.issued w
     = Aws.GetStaticIpsCall
         :: repeat (Aws.DetachStaticIpCall "sip-web-1") 8
         ++ [Aws.DeleteInstanceCall "web-1"].
Proof. vm_compute. split; reflexivity. Qed.

Section LightsailFacts.
Import Go Aws.
Context {S : Type}.
Variable cli : LightsailAPI S.

Lemma call_issued {A : Type} (c : Call) (method : S -> A * S) (w : World S) :
  issued (call c method w).2 = issued w ++ [c].
Proof. unfold call. destruct (method (service w)). reflexivity. Qed.

Lemma call_now {A : Type} (c : Call) (method : S -> A * S) (w : World S) :
  now (call c method w).2 = now w.
Proof. unfold call. destruct (method (service w)). reflexivity. Qed.

Lemma call_result {A : Type} (c : Call) (method : S -> A * S) (w : World S) :
  (call c method w).1 = (method (service w)).1.
Proof. unfold call. destruct (method (service w)). reflexivity. Qed.

(** C4, amended.  [ListInstances] reports an error exactly when
    [GetInstances] does: the error of [GetInstances] comes back behind the
    localized text, with no instance; when [GetInstances] succeeds the
    error is nil, whatever [GetStaticIps] answers. *)
Theorem ListInstances_error_iff_GetInstances_fails
    (w : World S) out e s1 :
  GetInstances cli (service w) = ((out, e), s1) ->
  match (ListInstances cli w).1 with
  | Returned (views, err) =>
      err = match e with
            | Some msg => Some ("拉取实例失败：" +:+ msg)
            | None => None
            end
      /\ (e <> None -> views = [])
  | Panicked _ => e = None
  end.
Proof.
  intros Hget. unfold ListInstances, call. rewrite Hget.
  destruct e as [msg|].
  - cbn [fst]. split; [reflexivity | intros _; reflexivity].
  - destruct (GetStaticIps cli _) as [[sipOut e2] s2].
    destruct out as [out|]; cbn [fst]; [|reflexivity].
    destruct (views_loop _ _ _) as [views|reason]; cbn [fst].
    + split; [reflexivity | congruence].
    + reflexivity.
Qed.
End LightsailFacts.

(** C4 as stated fails: [GetStaticIps] is throttled, and [ListInstances]
    returns the instance with a nil error. *)
Lemma ListInstances_ignores_GetStaticIps_error :
  (Aws.GetStaticIps Scenario.static_ips_down tt).1.2
  = Some "ThrottlingException"
  /\ exists views,
       (Aws.ListInstances Scenario.static_ips_down Scenario.dawn).1
       = Go.Returned (views, None)
       /\ length views = 1%nat.
Proof. split; [reflexivity|]. eexists. split; reflexivity. Qed.

(** The amended C4 on an account whose listing is refused. *)
Lemma ListInstances_error_iff_GetInstances_fails_witness :
  match (Aws.ListInstances Scenario.listing_refused Scenario.dawn).1 with
  | Go.Returned (views, err) =>
      err = Some ("拉取实例失败：" +:+ "AccessDeniedException")
      /\ (Some "AccessDeniedException" <> @None string -> views = [])
  | Go.Panicked _ => Some "AccessDeniedException" = @None string
  end.
Proof.
  apply (ListInstances_error_iff_GetInstances_fails Scenario.listing_refused
           Scenario.dawn None (Some "AccessDeniedException") tt).
  reflexivity.
Defined.

Section CleanupFacts.
Import Go Aws.
Context {S : Type}.
Variable cli : LightsailAPI S.

Lemma issues_refl P (w : World S) : issues P w w.
Proof. exists []. rewrite app_nil_r. split; [reflexivity | constructor]. Qed.

Lemma issues_trans P (w1 w2 w3 : World S) :
  issues P w1 w2 -> issues P w2 w3 -> issues P w1 w3.
Proof.
  intros (cs1 & H1 & F1) (cs2 & H2 & F2). exists (cs1 ++ cs2).
  rewrite H2, H1, app_assoc. split; [reflexivity|].
  apply Forall_app. split; assumption.
Qed.

Lemma issues_call {A : Type} (P : Call -> Prop) c (method : S -> A * S) w :
  P c -> issues P w (call c method w).2.
Proof.
  intros Hc. exists [c]. rewrite call_issued. split; [reflexivity|].
  constructor; [exact Hc | constructor].
Qed.

Lemma issues_Sleep P d (w : World S) : issues P w (time_Sleep d w).
Proof.
  exists []. cbn [time_Sleep issued]. rewrite app_nil_r.
  split; [reflexivity | constructor].
Qed.

(** A retried request is issued once per invocation, and nothing else
    is. *)
Lemma SafeRetry_loop_issued c (method : S -> error * S) baseSleep n :
  forall i last w,
    issued (SafeRetry_loop time_Sleep (call c method) baseSleep n i last w).1.2
    = issued w
      ++ repeat c (length (invocations
           (SafeRetry_loop time_Sleep (call c method) baseSleep n i last w).2)).
Proof.
  induction n as [|k IH]; intros i last w; simpl.
  - rewrite app_nil_r. reflexivity.
  - pose proof (call_issued c method w) as Hc.
    destruct (call c method w) as [[e|] w1]; cbn [fst snd] in *.
    + specialize (IH (i + 1) (Some e) (time_Sleep (backoff baseSleep i) w1)).
      destruct (SafeRetry_loop _ _ _ _ _ _ _) as [[x w2] tr].
      cbn [fst snd] in *. rewrite IH. cbn [time_Sleep issued].
      rewrite Hc. simpl. rewrite <- app_assoc. reflexivity.
    + rewrite Hc. reflexivity.
Qed.

Lemma SafeRetry_issued actionName retries baseSleep c (method : S -> error * S) w :
  exists k,
    issued (SafeRetry time_Sleep actionName retries baseSleep
              (call c method) w).2
    = issued w ++ c :: repeat c k.
Proof.
  pose proof (SafeRetry_invokes_at_least_once time_Sleep actionName retries
                baseSleep (call c method) w) as [_ H].
  unfold SafeRetry. unfold SafeRetry_run in *.
  pose proof (SafeRetry_loop_issued c method baseSleep
    (Z.to_nat (if retries <? 1 then 1 else retries)) 0 None w) as Hi.
  destruct (SafeRetry_loop _ _ _ _ _ _ _) as [[x w'] tr].
  cbn [fst snd] in Hi.
  assert (Hlen : (1 <= length (invocations tr))%nat).
  { destruct x; apply H. }
  destruct (length (invocations tr)) as [|k]; [lia|].
  exists k. destruct x; cbn [snd]; exact Hi.
Qed.

Lemma SafeRetry_issues P actionName retries baseSleep c
    (method : S -> error * S) w :
  P c ->
  issues P w (SafeRetry time_Sleep actionName retries baseSleep
                (call c method) w).2.
Proof.
  intros Hc.
  destruct (SafeRetry_issued actionName retries baseSleep c method w) as [k Hk].
  exists (c :: repeat c k). split; [exact Hk|].
  constructor; [exact Hc|]. apply Forall_forall. intros x Hx.
  apply list_elem_of_In, repeat_spec in Hx. subst x. exact Hc.
Qed.

Lemma WaitStaticIPDetached_loop_issues name deadline w :
  issues cleanup_call w (WaitStaticIPDetached_loop cli name deadline w).2.
Proof.
  funelim (WaitStaticIPDetached_loop cli name deadline w).
  - apply issues_refl.
  - apply issues_call. exact I.
  - match goal with IH : issues _ _ _ |- _ =>
      refine (issues_trans _ _ _ _ _ IH)
    end.
    refine (issues_trans _ _ _ _ (issues_call _ _ _ _ I) (issues_Sleep _ _ _)).
Qed.

Lemma wait_deleted_loop_issues name deadline w :
  issues cleanup_call w (wait_deleted_loop cli name deadline w).2.
Proof.
  funelim (wait_deleted_loop cli name deadline w).
  - apply issues_refl.
  - match goal with IH : issues _ _ _ |- _ =>
      refine (issues_trans _ _ _ _ _ IH)
    end.
    refine (issues_trans _ _ _ _ (issues_call _ _ _ _ I) (issues_Sleep _ _ _)).
  - apply issues_call. exact I.
Qed.
Lemma FindAttachedStaticIPName_issued name w :
  issued (FindAttachedStaticIPName cli name w).2 = issued w ++ [GetStaticIpsCall].
Proof.
  unfold FindAttachedStaticIPName.
  pose proof (call_issued GetStaticIpsCall (GetStaticIps cli) w) as Hc.
  destruct (call GetStaticIpsCall (GetStaticIps cli) w) as [[out [e|]] w1];
    [exact Hc|].
  destruct out; exact Hc.
Qed.

(** The cleanup starts by listing the static addresses and only ever
    sends static-address requests. *)
Lemma DeletePreviousStaticIPOnlyForInstance_issued name w :
  exists cs,
    issued (DeletePreviousStaticIPOnlyForInstance cli name w).2
    = issued w ++ GetStaticIpsCall :: cs
    /\ Forall cleanup_call cs.
Proof.
  unfold DeletePreviousStaticIPOnlyForInstance.
  pose proof (FindAttachedStaticIPName_issued name w) as Hfind.
  destruct (FindAttachedStaticIPName cli name w) as [[oldName ip] w1].
  cbn [snd] in Hfind.
  match goal with
  | |- exists cs, issued (snd ?X) = _ /\ _ =>
      enough (Hrest : issues cleanup_call w1 (snd X))
  end.
  { destruct Hrest as (cs & Hcs & Hall). exists cs.
    rewrite Hcs, Hfind, <- app_assoc. split; [reflexivity | exact Hall]. }
  destruct (String.eqb oldName ""); [apply issues_refl|].
  pose proof (SafeRetry_issues cleanup_call "解绑旧静态IP" 8 (1200 * Millisecond)
                (DetachStaticIpCall oldName) (DetachStaticIp cli oldName) w1 I)
    as Hdetach.
  destruct (SafeRetry time_Sleep "解绑旧静态IP" _ _ _ w1) as [[err|] w2];
    cbn [snd] in *; [exact Hdetach|].
  refine (issues_trans _ _ _ _ Hdetach _).
  pose proof (WaitStaticIPDetached_loop_issues oldName (now w2 + 120 * Second) w2)
    as Hwait.
  unfold WaitStaticIPDetached.
  destruct (WaitStaticIPDetached_loop cli oldName _ w2) as [ok w3].
  cbn [snd] in Hwait.
  destruct ok; cbn [negb]; [|exact Hwait].
  refine (issues_trans _ _ _ _ Hwait _).
  pose proof (SafeRetry_issues cleanup_call "释放旧静态IP" 12 (1300 * Millisecond)
                (ReleaseStaticIpCall oldName) (ReleaseStaticIp cli oldName) w3 I)
    as Hrelease.
  destruct (SafeRetry time_Sleep "释放旧静态IP" _ _ _ w3) as [[err|] w4];
    cbn [snd] in *; [exact Hrelease|].
  refine (issues_trans _ _ _ _ Hrelease _).
  apply wait_deleted_loop_issues.
Qed.

(** C10.  [DeleteInstanceWithStaticIPCleanup] first runs the cleanup,
    which sends static-address requests only, and then, whatever the
    cleanup returned, sends [DeleteInstance] for the instance (once per
    attempt of the retry loop, at least once) and nothing else. *)
Theorem DeleteInstance_issued_whatever_cleanup_returns
    (name : string) (w : World S) :
  let '(cleanup, w1) := DeletePreviousStaticIPOnlyForInstance cli name w in
  let '(err, w2) := DeleteInstanceWithStaticIPCleanup cli name w in
  (exists cs, issued w1 = issued w ++ GetStaticIpsCall :: cs
              /\ Forall cleanup_call cs)
  /\ (exists k, issued w2
                = issued w1
                  ++ DeleteInstanceCall name
                       :: repeat (DeleteInstanceCall name) k)
  /\ (err, w2)
     = SafeRetry time_Sleep "删除实例" 8 (1200 * Millisecond)
         (call (DeleteInstanceCall name) (DeleteInstance cli name)) w1.
Proof.
  pose proof (DeletePreviousStaticIPOnlyForInstance_issued name w) as Hclean.
  unfold DeleteInstanceWithStaticIPCleanup.
  destruct (DeletePreviousStaticIPOnlyForInstance cli name w) as [cleanup w1].
  cbn [snd] in Hclean.
  pose proof (SafeRetry_issued "删除实例" 8 (1200 * Millisecond)
                (DeleteInstanceCall name) (DeleteInstance cli name) w1) as Hdel.
  destruct (SafeRetry time_Sleep "删除实例" _ _ _ w1) as [err w2].
  cbn [snd] in Hdel. split; [exact Hclean|]. split; [exact Hdel | reflexivity].
Qed.
End CleanupFacts.
(** ** The credential store *)

Section StoreFacts.
Import Go Store.
Variable GenerateFromPassword : string -> Z -> string * error.
Variable CompareHashAndPassword : string -> string -> error.
Variable time_Parse : string -> string -> CalendarTime * error.

(** An exchange with the driver leaves the tables alone. *)
Lemma driver_tables db :
  users (driver db).2 = users db
  /\ api_keys (driver db).2 = api_keys db
  /\ users_seq (driver db).2 = users_seq db
  /\ api_keys_seq (driver db).2 = api_keys_seq db.
Proof. unfold driver. destruct (faults db); repeat split. Qed.

Lemma driver_users db : users (driver db).2 = users db.
Proof. apply driver_tables. Qed.

Lemma driver_api_keys db : api_keys (driver db).2 = api_keys db.
Proof. apply driver_tables. Qed.

Lemma driver_served n db :
  served (S n) db -> (driver db).1 = None /\ served n (driver db).2.
Proof.
  unfold served, driver. destruct (faults db) as [|answer rest] eqn:E; simpl.
  - intros _. split; [reflexivity|]. rewrite E. destruct n; constructor.
  - intros H. apply Forall_cons in H. destruct H as [-> H].
    split; [reflexivity | exact H].
Qed.

Lemma select_user_users name db : users (select_user name db).2 = users db.
Proof.
  unfold select_user. pose proof (driver_users db) as H.
  destruct (driver db) as [[err|] db1]; cbn [snd] in *; [exact H|].
  destruct (find _ _); exact H.
Qed.

(** A registered name is never answered by [sql.ErrNoRows]. *)
Lemma select_user_registered name db :
  name ∈ usernames db -> (select_user name db).1 <> ErrNoRows.
Proof.
  intros Hin. unfold select_user. pose proof (driver_users db) as H.
  destruct (driver db) as [[err|] db1]; cbn [fst snd] in *; [discriminate|].
  destruct (find _ (users db1)) as [row|] eqn:Hfind; [discriminate|].
  exfalso. unfold usernames in Hin. apply list_elem_of_In, in_map_iff in Hin.
  destruct Hin as (row & Hname & Hrow). rewrite <- H in Hrow.
  apply (find_none _ _ Hfind) in Hrow. subst name.
  rewrite String.eqb_refl in Hrow. discriminate.
Qed.

Lemma select_user_served name db :
  served 1 db -> forall msg, (select_user name db).1 <> ScanError msg.
Proof.
  intros Hs msg. unfold select_user.
  destruct (driver_served 0 db Hs) as [Hd _].
  destruct (driver db) as [[err|] db1]; cbn [fst] in *; [discriminate|].
  destruct (find _ _); discriminate.
Qed.

(** [INSERT INTO users] keeps the names distinct. *)
Lemma insert_user_NoDup name hash db :
  NoDup (usernames db) -> NoDup (usernames (insert_user name hash db).2).
Proof.
  intros Hnd. unfold insert_user. pose proof (driver_users db) as H.
  destruct (driver db) as [[err|] db1]; cbn [snd] in *.
  - unfold usernames. rewrite H. exact Hnd.
  - destruct (existsb _ (users db1)) eqn:Hex; cbn [snd].
    + unfold usernames. rewrite H. exact Hnd.
    + unfold usernames, with_users. cbn [users]. rewrite H, map_app. cbn [map].
      apply NoDup_app. split; [exact Hnd|]. split.
      * intros x Hx Hx'. apply list_elem_of_singleton in Hx'. subst x.
        apply list_elem_of_In, in_map_iff in Hx.
        destruct Hx as (row & Hname & Hrow).
        rewrite <- H in Hrow.
        assert (Htrue : existsb (fun row => String.eqb (username row) name)
                          (users db1) = true).
        { apply existsb_exists. exists row. split; [exact Hrow|].
          rewrite Hname. apply String.eqb_refl. }
        congruence.
      * apply NoDup_singleton.
Qed.

(** Whatever it is called with, [EnsureUser] keeps the names distinct. *)
Lemma EnsureUser_NoDup u p db :
  NoDup (usernames db) ->
  NoDup (usernames (EnsureUser GenerateFromPassword u p db).2).
Proof.
  intros Hnd. unfold EnsureUser. cbn zeta.
  destruct (_ || _); [exact Hnd|].
  pose proof (driver_users db) as H1.
  destruct (driver db) as [[err|] db1]; cbn [snd] in *;
    [unfold usernames; rewrite H1; exact Hnd|].
  pose proof (select_user_users (strings_TrimSpace u) db1) as H2.
  destruct (select_user _ db1) as [[row| |msg] db2]; cbn [snd] in *;
    try (unfold usernames; rewrite H2, H1; exact Hnd).
  destruct (GenerateFromPassword _ _) as [hash [err|]];
    [unfold usernames; cbn [snd]; rewrite H2, H1; exact Hnd|].
  pose proof (driver_users db2) as H3.
  destruct (driver db2) as [[err|] db3]; cbn [snd] in *;
    [unfold usernames; rewrite H3, H2, H1; exact Hnd|].
  assert (Hnd3 : NoDup (usernames db3)).
  { unfold usernames. rewrite H3, H2, H1. exact Hnd. }
  pose proof (insert_user_NoDup (strings_TrimSpace u) hash db3 Hnd3) as H4.
  destruct (insert_user _ _ db3) as [[err|] db4]; exact H4.
Qed.

(** C5, amended.  When a user named [TrimSpace u] exists, [EnsureUser u p]
    reports "not created" and leaves the table [users] as it is; its error
    is nil when moreover neither [u] nor [p] is blank and the driver
    serves the two exchanges of the lookup.  In every case, distinct
    names stay distinct. *)
Theorem EnsureUser_existing_user_not_inserted (u p : string) (db : DB) :
  (strings_TrimSpace u ∈ usernames db ->
     (EnsureUser GenerateFromPassword u p db).1.1 = false
     /\ users (EnsureUser GenerateFromPassword u p db).2 = users db
     /\ (strings_TrimSpace u <> "" -> strings_TrimSpace p <> "" ->
         served 2 db ->
         (EnsureUser GenerateFromPassword u p db).1 = (false, None)))
  /\ (NoDup (usernames db) ->
      NoDup (usernames (EnsureUser GenerateFromPassword u p db).2)).
Proof.
  split; [|apply EnsureUser_NoDup].
  intros Hin. unfold EnsureUser. cbn zeta.
  destruct (String.eqb_spec (strings_TrimSpace u) "") as [Hu|Hu];
    [cbn [orb fst snd]; repeat split; intros; contradiction|].
  destruct (String.eqb_spec (strings_TrimSpace p) "") as [Hp|Hp];
    [cbn [orb fst snd]; repeat split; intros; contradiction|].
  cbn [orb].
  pose proof (driver_users db) as H1.
  pose proof (driver_served 1 db) as Hs1.
  destruct (driver db) as [[err|] db1]; cbn [fst snd] in *.
  { repeat split; [exact H1|]. intros _ _ Hs. destruct (Hs1 Hs). discriminate. }
  assert (Hin1 : strings_TrimSpace u ∈ usernames db1).
  { unfold usernames. rewrite H1. exact Hin. }
  pose proof (select_user_users (strings_TrimSpace u) db1) as H2.
  pose proof (select_user_registered (strings_TrimSpace u) db1 Hin1) as Hreg.
  pose proof (select_user_served (strings_TrimSpace u) db1) as Hserved.
  destruct (select_user _ db1) as [[row| |msg] db2]; cbn [fst snd] in *.
  - repeat split. rewrite H2. exact H1.
  - contradiction Hreg. reflexivity.
  - repeat split; [rewrite H2; exact H1|]. intros _ _ Hs.
    destruct (Hs1 Hs) as [_ Hs']. exfalso. exact (Hserved Hs' msg eq_refl).
Qed.
End StoreFacts.

(** C5 as stated fails: the administrator exists, the password is blank,
    and [EnsureUser] answers with an error instead of [(false, nil)]. *)
Lemma EnsureUser_blank_password_is_an_error :
  Go.strings_TrimSpace "admin" ∈ Store.usernames Scenario.two_users
  /\ (Store.EnsureUser Scenario.toy_Generate "admin" "   "
        Scenario.two_users).1
     = (false, Some "username/password required")
  /\ (Store.EnsureUser Scenario.toy_Generate "admin" "   "
        Scenario.two_users).1
     <> (false, None).
Proof.
  split; [|split].
  - vm_compute. apply list_elem_of_here.
  - vm_compute. reflexivity.
  - vm_compute. discriminate.
Qed.

(** The amended C5 on the administrator with a password. *)
Lemma EnsureUser_existing_user_not_inserted_witness :
  (Store.EnsureUser Scenario.toy_Generate " admin " "admin123"
     Scenario.two_users).1 = (false, None)
  /\ Store.users (Store.EnsureUser Scenario.toy_Generate " admin " "admin123"
                    Scenario.two_users).2
     = Store.users Scenario.two_users
  /\ NoDup (Store.usernames
              (Store.EnsureUser Scenario.toy_Generate " admin " "admin123"
                 Scenario.two_users).2).
Proof.
  destruct (EnsureUser_existing_user_not_inserted Scenario.toy_Generate
              " admin " "admin123" Scenario.two_users) as [Hexists Hdistinct].
  assert (Hin : Go.strings_TrimSpace " admin "
                ∈ Store.usernames Scenario.two_users).
  { vm_compute. apply list_elem_of_here. }
  destruct (Hexists Hin) as (_ & Hsame & Hnil).
  split; [|split].
  - apply Hnil.
    + vm_compute. discriminate.
    + vm_compute. discriminate.
    + unfold Store.served. vm_compute. constructor.
  - exact Hsame.
  - apply Hdistinct. vm_compute.
    apply NoDup_cons. split.
    + intros H. apply list_elem_of_singleton in H. discriminate.
    + apply NoDup_singleton.
Defined.

Section KeyScope.
Import Go Store.
Variable time_Parse : string -> string -> CalendarTime * error.

Lemma insert_desc_Forall (P : KeyRow -> Prop) row sorted :
  P row -> Forall P sorted -> Forall P (insert_desc row sorted).
Proof.
  intros Hrow Hs. induction Hs as [|r rest Hr Hrest IH]; simpl.
  - constructor; [exact Hrow | constructor].
  - destruct (key_id r <=? key_id row).
    + constructor; [exact Hrow|]. constructor; assumption.
    + constructor; assumption.
Qed.

Lemma order_by_id_desc_Forall (P : KeyRow -> Prop) rows :
  Forall P rows -> Forall P (order_by_id_desc rows).
Proof.
  induction 1 as [|r rest Hr Hrest IH]; simpl; [constructor|].
  apply insert_desc_Forall; assumption.
Qed.

Lemma select_keys_owner userID db :
  Forall (fun row => user_id row = userID) (select_keys userID db).
Proof.
  unfold select_keys. apply order_by_id_desc_Forall.
  apply Forall_forall. intros row Hrow.
  apply list_elem_of_filter in Hrow. destruct Hrow as [Hrow _]. exact Hrow.
Qed.

Lemma scan_keys_owner userID rows : forall out db,
  Forall (fun row => user_id row = userID) rows ->
  Forall (fun key => UserID key = userID) out ->
  match (scan_keys time_Parse rows out db).1 with
  | inl keys => Forall (fun key => UserID key = userID) keys
  | inr _ => True
  end.
Proof.
  induction rows as [|row rest IH]; intros out db Hrows Hout; simpl.
  - exact Hout.
  - destruct (driver db) as [[err|] db1]; [exact I|].
    apply Forall_cons in Hrows. destruct Hrows as [Hrow Hrest].
    apply IH; [exact Hrest|].
    apply Forall_app. split; [exact Hout|].
    constructor; [exact Hrow | constructor].
Qed.

Lemma ListKeys_owner userID db :
  Forall (fun key => UserID key = userID) (ListKeys time_Parse userID db).1.1.
Proof.
  unfold ListKeys.
  destruct (driver db) as [[err|] db1]; [constructor|].
  destruct (driver db1) as [[err|] db2]; [constructor|].
  pose proof (scan_keys_owner userID (select_keys userID db2) [] db2
                (select_keys_owner userID db2) (List.Forall_nil _)) as H.
  destruct (scan_keys _ _ _ db2) as [[keys|err] db3]; cbn [fst] in *;
    [|constructor].
  destruct (driver db3) as [[err|] db4]; [constructor | exact H].
Qed.

Lemma keys_of_with_api_keys userID rows seq db :
  keys_of userID (with_api_keys rows seq db)
  = filter (fun row => user_id row = userID) rows.
Proof. reflexivity. Qed.

Lemma keys_of_driver userID db : keys_of userID (driver db).2 = keys_of userID db.
Proof. unfold keys_of. rewrite driver_api_keys. reflexivity. Qed.

Lemma delete_key_other keyID userID other db :
  userID <> other ->
  keys_of other (delete_key keyID userID db).2 = keys_of other db.
Proof.
  intros Hne. unfold delete_key. pose proof (keys_of_driver other db) as Hd.
  destruct (driver db) as [[err|] db1]; cbn [snd] in *; [exact Hd|].
  rewrite keys_of_with_api_keys, <- Hd. unfold keys_of.
  induction (api_keys db1) as [|row rows IH]; [reflexivity|].
  rewrite (filter_cons _ row rows).
  destruct (decide (~ (key_id row = keyID /\ user_id row = userID))) as [Hkeep|Hdrop].
  - rewrite !filter_cons, IH. reflexivity.
  - rewrite IH. rewrite (filter_cons _ row rows).
    destruct (decide (user_id row = other)) as [Ho|Ho]; [|reflexivity].
    exfalso. apply Hdrop. intros [_ Hu]. congruence.
Qed.

Lemma update_key_other n a s p keyID userID other db :
  userID <> other ->
  keys_of other (update_key n a s p keyID userID db).2 = keys_of other db.
Proof.
  intros Hne. unfold update_key. pose proof (keys_of_driver other db) as Hd.
  destruct (driver db) as [[err|] db1]; cbn [snd] in *; [exact Hd|].
  rewrite keys_of_with_api_keys, <- Hd. unfold keys_of.
  induction (api_keys db1) as [|row rows IH]; [reflexivity|].
  cbn [map]. rewrite !filter_cons, IH.
  destruct (decide (key_id row = keyID /\ user_id row = userID)) as [[_ Hu]|Hno].
  - cbn [user_id].
    destruct (decide (user_id row = other)) as [Ho|Ho]; [congruence | reflexivity].
  - reflexivity.
Qed.

(** C6.  For distinct users [u] and [u']: [ListKeys u] returns keys of
    [u] only, and [DeleteKey u k] and [UpdateKey u k ...] leave the keys
    of [u'] in the table exactly as they were. *)
Theorem keys_scoped_to_owning_user
    (now : CalendarTime) (u u' k : Z) (n a s p : string) (db : DB) :
  u <> u' ->
  Forall (fun key => UserID key = u) (ListKeys time_Parse u db).1.1
  /\ keys_of u' (DeleteKey u k db).2 = keys_of u' db
  /\ keys_of u' (UpdateKey now u k n a s p db).2 = keys_of u' db.
Proof.
  intros Hne. split; [apply ListKeys_owner|]. split.
  - unfold DeleteKey. destruct (k =? 0); [reflexivity|].
    pose proof (keys_of_driver u' db) as Hd.
    destruct (driver db) as [[err|] db1]; cbn [snd] in *; [exact Hd|].
    rewrite delete_key_other by exact Hne. exact Hd.
  - unfold UpdateKey. destruct (k =? 0); [reflexivity|].
    destruct (_ || _); [reflexivity|]. cbn zeta.
    pose proof (keys_of_driver u' db) as Hd.
    destruct (driver db) as [[err|] db1]; cbn [snd] in *; [exact Hd|].
    rewrite update_key_other by exact Hne. exact Hd.
Qed.
End KeyScope.

(** C6 on the two users of the scenario: the administrator lists,
    deletes and rewrites key 2, which belongs to the other user. *)
Lemma keys_scoped_to_owning_user_witness :
  Forall (fun key => Store.UserID key = 1)
         (Store.ListKeys Scenario.toy_Parse 1 Scenario.two_users).1.1
  /\ Store.keys_of 2 (Store.DeleteKey 1 2 Scenario.two_users).2
     = Store.keys_of 2 Scenario.two_users
  /\ Store.keys_of 2
       (Store.UpdateKey Scenario.noon 1 2 "x" "AKIAX" "x-secret" ""
          Scenario.two_users).2
     = Store.keys_of 2 Scenario.two_users.
Proof.
  apply (keys_scoped_to_owning_user Scenario.toy_Parse Scenario.noon 1 2 2
           "x" "AKIAX" "x-secret" "" Scenario.two_users).
  discriminate.
Defined.

Example ListKeys_two_users :
  (Store.ListKeys Scenario.toy_Parse 2 Scenario.two_users).1
  = ([{| Store.ID := 2; Store.UserID := 2; Store.Name := "ops";
         Store.AccessKey := "AKIAOPS"; Store.SecretKey := "ops-secret";
         Store.Proxy := "socks5://127.0.0.1:1080";
         Store.CreatedAt :=
           {| Go.Year := 2024; Go.Month := 3; Go.Day := 9;
              Go.Hour := 7; Go.Minute_ := 5; Go.Second_ := 0 |} |}], None).
Proof. vm_compute. reflexivity. Qed.
(** ** The session store *)

Section SessionFacts.
Import Go Session.

Lemma reachable_ttl st : reachable st -> ttl st = 30 * Minute.
Proof.
  induction 1 as [|now id st _ IH| | |]; try assumption; [reflexivity|].
  unfold GetOrCreate. destruct (sessions st !! id); exact IH.
Qed.

(** What a sweep leaves under each identifier, for any [ttl]. *)
Lemma cleanupExpired_lookup now st id :
  sessions (cleanupExpired now st) !! id
  = match sessions st !! id with
    | Some s => if lastAccess s <? now - ttl st then None else Some s
    | None => None
    end.
Proof.
  unfold cleanupExpired, Time_Before, Time_Add, LastAccess. cbn [sessions].
  replace (now + - ttl st) with (now - ttl st) by lia.
  set (limit := now - ttl st).
  set (M := sessions st).
  enough (H : forall id,
    map_fold (fun id sess (m : gmap string Session) =>
                if lastAccess sess <? limit then delete id m else m) M M !! id
    = match M !! id with
      | Some s => if lastAccess s <? limit then None else M !! id
      | None => M !! id
      end).
  { rewrite H. destruct (M !! id) as [s|]; [|reflexivity].
    destruct (lastAccess s <? limit); reflexivity. }
  clear id.
  generalize M at 1 4 5 as whole. intros whole.
  apply (map_fold_weak_ind
    (fun (r : gmap string Session) (m : gmap string Session) =>
       forall id,
         r !! id = match m !! id with
                   | Some s => if lastAccess s <? limit then None
                               else whole !! id
                   | None => whole !! id
                   end)).
  - intros id. rewrite lookup_empty. reflexivity.
  - intros i x m r Hfresh IH id.
    destruct (decide (id = i)) as [->|Hne].
    + rewrite lookup_insert_eq.
      destruct (lastAccess x <? limit).
      * apply lookup_delete_eq.
      * rewrite IH, Hfresh. reflexivity.
    + rewrite lookup_insert_ne by congruence.
      destruct (lastAccess x <? limit).
      * rewrite lookup_delete_ne by congruence. apply IH.
      * apply IH.
Qed.

(** C7. One sweep of a store created by [NewStore] removes the
    sessions last accessed strictly before [now] minus 30 minutes, and
    only those: every other session stays in the map as it was. *)
Theorem cleanupExpired_removes_exactly_expired (st : Store) (now : Time) :
  reachable st ->
  forall id : string,
    sessions (cleanupExpired now st) !! id
    = match sessions st !! id with
      | Some s =>
          if lastAccess s <? now - 30 * Minute then None else Some s
      | None => None
      end.
Proof.
  intros Hst id. rewrite cleanupExpired_lookup, (reachable_ttl st Hst).
  reflexivity.
Qed.
End SessionFacts.

(** C7 on two visitors, seen at minute 0 and at minute 20, swept at
    minute 31. *)
Lemma cleanupExpired_removes_exactly_expired_witness :
  Session.reachable Scenario.two_visitors /\
  forall id : string,
    Session.sessions (Session.cleanupExpired (31 * Go.Minute)
                        Scenario.two_visitors) !! id
    = match Session.sessions Scenario.two_visitors !! id with
      | Some s =>
          if Session.lastAccess s <? 31 * Go.Minute - 30 * Go.Minute
          then None else Some s
      | None => None
      end.
Proof.
  assert (H : Session.reachable Scenario.two_visitors).
  { unfold Scenario.two_visitors.
    apply Session.reach_GetOrCreate, Session.reach_GetOrCreate,
      Session.reach_NewStore. }
  split; [exact H|].
  exact (cleanupExpired_removes_exactly_expired Scenario.two_visitors
           (31 * Go.Minute) H).
Defined.

(** The same sweep, computed: alice is gone, bob is still there. *)
Example cleanupExpired_two_visitors :
  let swept := Session.cleanupExpired (31 * Go.Minute) Scenario.two_visitors in
  Session.sessions swept !! "alice" = None
  /\ Session.lastAccess <$> Session.sessions swept !! "bob"
     = Some (20 * Go.Minute).
Proof. vm_compute. split; reflexivity. Qed.
